(** * Kalium Network incident tracker: Store, QueryEngine and persistence

    Shallow embedding of [src/components/KaliumIncidenciasApp.tsx].

    - TypeScript object types become records, one module per type so that
      the field names of the source ([id], [title], [updatedAt], ...) are kept.
    - An optional property [p?: T] is an [option T]; a property that is absent
      and one that holds [undefined] read the same and are both [None].
    - [Partial<T>] is a record of options: [Some v] is a property carried by
      the patch.
    - JavaScript strings are byte strings (UTF-8); [toLowerCase] folds the
      ASCII letters and leaves the other bytes as they are.
    - [number] is only used for [Attachment.size], a byte count: it is a [Z].
    - The clock ([new Date()]) and [Math.random()] are read from the world
      the component runs in; every read advances the corresponding cursor. *)

From Stdlib Require Import ZArith String Ascii List Lia Bool Permutation Sorted.
From Stdlib Require Import Decimal DecimalString DecimalPos DecimalZ.
From stdpp Require Import base option list strings gmap.

Local Open Scope string_scope.
Local Open Scope Z_scope.
Local Open Scope nat_scope.

(* ===================================================================== *)
(** ** Utilidades y tipos *)
(* ===================================================================== *)

Module LS_KEYS.
Definition incidents : string := "kalium_incidents".
Definition contentBlocks : string := "kalium_content_blocks".
Definition settings : string := "kalium_settings".
End LS_KEYS.

Module Settings.
Record t := mk {
  categories : list string;
  servers : list string;
  priorities : list string;
}.
End Settings.

Definition DEFAULT_SETTINGS : Settings.t :=
  {| Settings.categories :=
       ["General"; "Errores de conexión"; "Economía"; "Reportes de jugadores"; "Sugerencias"];
     Settings.servers := ["Lobby"; "Survival"; "Skyblock"; "Minijuegos"];
     Settings.priorities := ["Baja"; "Media"; "Alta"; "Crítica"] |}.

(** [type Status = typeof STATUS_OPTIONS[number]]: a union of four string
    literals. [Status_str] is the string a status is at run time. *)
Inductive Status := Abierta | En_progreso | Resuelta | Cerrada.

Definition Status_str (s : Status) : string :=
  match s with
  | Abierta => "Abierta"
  | En_progreso => "En progreso"
  | Resuelta => "Resuelta"
  | Cerrada => "Cerrada"
  end.

Definition STATUS_OPTIONS : list string :=
  map Status_str [Abierta; En_progreso; Resuelta; Cerrada].

Definition Status_eqb (a b : Status) : bool :=
  String.eqb (Status_str a) (Status_str b).

Module Attachment.
Record t := mk {
  id : string;
  name : string;
  type : string;
  size : Z;
  url : string;
}.
End Attachment.

Module Reporter.
Record t := mk {
  email : option string;
  discord : option string;
}.
End Reporter.

Module Incident.
Record t := mk {
  id : string;
  title : string;
  description : string;
  category : string;
  server : string;
  priority : string;
  status : Status;
  reporter : option Reporter.t;
  attachments : list Attachment.t;
  createdAt : string;
  updatedAt : string;
}.
End Incident.

(** [Omit<Incident, "id" | "createdAt" | "updatedAt">], the argument of
    [createIncident]. *)
Module IncidentData.
Record t := mk {
  title : string;
  description : string;
  category : string;
  server : string;
  priority : string;
  status : Status;
  reporter : option Reporter.t;
  attachments : list Attachment.t;
}.
End IncidentData.

(** [Partial<Incident>], the patch of [updateIncident]. *)
Module IncidentPatch.
Record t := mk {
  id : option string;
  title : option string;
  description : option string;
  category : option string;
  server : option string;
  priority : option string;
  status : option Status;
  reporter : option (option Reporter.t);
  attachments : option (list Attachment.t);
  createdAt : option string;
  updatedAt : option string;
}.

Definition empty : t :=
  mk None None None None None None None None None None None.
End IncidentPatch.

Module ContentBlock.
Record t := mk {
  id : string;
  title : string;
  body : string;
  updatedAt : string;
}.
End ContentBlock.

(** [Partial<ContentBlock>], the argument of [upsertBlock]. *)
Module ContentBlockPatch.
Record t := mk {
  id : option string;
  title : option string;
  body : option string;
  updatedAt : option string;
}.

Definition empty : t := mk None None None None.
End ContentBlockPatch.

Module Toast.
Record t := mk { title : string; description : string }.
End Toast.

(* ===================================================================== *)
(** ** The world of the component and its monad *)
(* ===================================================================== *)

(** React state of [KaliumIncidentsApp] (the three [useState] collections),
    the browser's [localStorage], the toasts shown so far, and the two
    sources the code reads: [clock n] is what the [n]-th evaluation of
    [new Date().toISOString()] returns, [entropy n] what the [n]-th
    evaluation of [Math.random().toString(36)] returns. *)
Record World := mkWorld {
  incidents : list Incident.t;
  contentBlocks : list ContentBlock.t;
  settings : Settings.t;
  localStorage : gmap string string;
  toasts : list Toast.t;
  clock : nat → string;
  ticks : nat;
  entropy : nat → string;
  draws : nat;
}.

Definition M (A : Type) : Type := World → A * World.

Definition ret {A} (a : A) : M A := λ w, (a, w).
Definition bind {A B} (m : M A) (k : A → M B) : M B :=
  λ w, let '(a, w') := m w in k a w'.

Declare Scope js_scope.
Delimit Scope js_scope with js.
Notation "'let*' x := m 'in' k" := (bind m (λ x, k))
  (at level 10, x name, m at level 100, k at level 200) : js_scope.
Notation "m ;; k" := (bind m (λ _, k))
  (at level 100, k at level 200, right associativity) : js_scope.
Local Open Scope js_scope.

Definition exec {A} (m : M A) (w : World) : World := snd (m w).
Definition eval {A} (m : M A) (w : World) : A := fst (m w).

(** [new Date().toISOString()] *)
Definition Date_now_toISOString : M string :=
  λ w, (clock w (ticks w),
        mkWorld (incidents w) (contentBlocks w) (settings w) (localStorage w)
                (toasts w) (clock w) (S (ticks w)) (entropy w) (draws w)).

(** [Math.random().toString(36)] *)
Definition Math_random_toString36 : M string :=
  λ w, (entropy w (draws w),
        mkWorld (incidents w) (contentBlocks w) (settings w) (localStorage w)
                (toasts w) (clock w) (ticks w) (entropy w) (S (draws w))).

Definition setIncidents (f : list Incident.t → M (list Incident.t)) : M unit :=
  λ w, let '(l, w') := f (incidents w) w in
       (tt, mkWorld l (contentBlocks w') (settings w') (localStorage w')
                    (toasts w') (clock w') (ticks w') (entropy w') (draws w')).

Definition setContentBlocks (f : list ContentBlock.t → M (list ContentBlock.t)) : M unit :=
  λ w, let '(l, w') := f (contentBlocks w) w in
       (tt, mkWorld (incidents w') l (settings w') (localStorage w')
                    (toasts w') (clock w') (ticks w') (entropy w') (draws w')).

Definition toast (t : Toast.t) : M unit :=
  λ w, (tt, mkWorld (incidents w) (contentBlocks w) (settings w) (localStorage w)
                    (toasts w ++ [t]) (clock w) (ticks w) (entropy w) (draws w)).

(** [Array.prototype.map] with a callback that runs in the world. *)
Fixpoint Array_map {A B} (f : A → M B) (l : list A) : M (list B) :=
  match l with
  | [] => ret []
  | x :: l' => let* y := f x in let* ys := Array_map f l' in ret (y :: ys)
  end.

(* ===================================================================== *)
(** ** Helpers *)
(* ===================================================================== *)

(** [s.slice(a, b)] for [0 <= a <= b]. *)
Definition slice (a b : nat) (s : string) : string := substring a (b - a) s.

(** [uid(prefix)]: [`${prefix}_${Math.random().toString(36).slice(2, 9)}`] *)
Definition uid (prefix : string) : M string :=
  let* r := Math_random_toString36 in
  ret (prefix +:+ "_" +:+ slice 2 9 r).

(** Truthiness of a string: every string but the empty one. *)
Definition truthy (s : string) : bool := negb (String.eqb s "").

(** [o || d] for an optional string [o]. *)
Definition or_default (o : option string) (d : string) : string :=
  match o with
  | Some s => if truthy s then s else d
  | None => d
  end.

(* ===================================================================== *)
(** ** CRUD Incidencias *)
(* ===================================================================== *)

(** [{ id: uid("inc"), createdAt: now, updatedAt: now, ...data }] *)
Definition new_incident (i now : string) (data : IncidentData.t) : Incident.t :=
  {| Incident.id := i;
     Incident.createdAt := now;
     Incident.updatedAt := now;
     Incident.title := IncidentData.title data;
     Incident.description := IncidentData.description data;
     Incident.category := IncidentData.category data;
     Incident.server := IncidentData.server data;
     Incident.priority := IncidentData.priority data;
     Incident.status := IncidentData.status data;
     Incident.reporter := IncidentData.reporter data;
     Incident.attachments := IncidentData.attachments data |}.

Definition createIncident (data : IncidentData.t) : M unit :=
  let* now := Date_now_toISOString in
  let* i := uid "inc" in
  let n := new_incident i now data in
  setIncidents (λ prev, ret (n :: prev));;
  toast {| Toast.title := "Incidencia creada"; Toast.description := Incident.title n |}.

(** [{ ...it, ...patch, updatedAt: now }] *)
Definition merge_incident (it : Incident.t) (patch : IncidentPatch.t) (now : string)
  : Incident.t :=
  {| Incident.id := default (Incident.id it) (IncidentPatch.id patch);
     Incident.title := default (Incident.title it) (IncidentPatch.title patch);
     Incident.description :=
       default (Incident.description it) (IncidentPatch.description patch);
     Incident.category := default (Incident.category it) (IncidentPatch.category patch);
     Incident.server := default (Incident.server it) (IncidentPatch.server patch);
     Incident.priority := default (Incident.priority it) (IncidentPatch.priority patch);
     Incident.status := default (Incident.status it) (IncidentPatch.status patch);
     Incident.reporter := default (Incident.reporter it) (IncidentPatch.reporter patch);
     Incident.attachments :=
       default (Incident.attachments it) (IncidentPatch.attachments patch);
     Incident.createdAt := default (Incident.createdAt it) (IncidentPatch.createdAt patch);
     Incident.updatedAt := now |}.

Definition updateIncident_cb (id : string) (patch : IncidentPatch.t) (it : Incident.t)
  : M Incident.t :=
  if String.eqb (Incident.id it) id
  then let* now := Date_now_toISOString in ret (merge_incident it patch now)
  else ret it.

Definition updateIncident (id : string) (patch : IncidentPatch.t) : M unit :=
  setIncidents (λ prev, Array_map (updateIncident_cb id patch) prev).

Definition deleteIncident (id : string) : M unit :=
  setIncidents (λ prev,
    ret (List.filter (λ i, negb (String.eqb (Incident.id i) id)) prev)).

(* ===================================================================== *)
(** ** CRUD Contenido *)
(* ===================================================================== *)

(** [block?.id], [block?.title], [block?.body] *)
Definition opt_id (block : option ContentBlockPatch.t) : option string :=
  block ≫= ContentBlockPatch.id.
Definition opt_title (block : option ContentBlockPatch.t) : option string :=
  block ≫= ContentBlockPatch.title.
Definition opt_body (block : option ContentBlockPatch.t) : option string :=
  block ≫= ContentBlockPatch.body.

(** Truthiness of an optional string: [undefined] and [""] are falsy. *)
Definition truthy_opt (o : option string) : bool :=
  match o with Some s => truthy s | None => false end.

(** [x === o] for a string [x] and an optional string [o]. *)
Definition strict_eq_opt (x : string) (o : option string) : bool :=
  match o with Some s => String.eqb x s | None => false end.

(** [{ ...x, ...block, updatedAt: now }] *)
Definition merge_block (x : ContentBlock.t) (block : option ContentBlockPatch.t)
    (now : string) : ContentBlock.t :=
  {| ContentBlock.id := default (ContentBlock.id x) (opt_id block);
     ContentBlock.title := default (ContentBlock.title x) (opt_title block);
     ContentBlock.body := default (ContentBlock.body x) (opt_body block);
     ContentBlock.updatedAt := now |}.

Definition upsertBlock_cb (block : option ContentBlockPatch.t) (x : ContentBlock.t)
  : M ContentBlock.t :=
  if strict_eq_opt (ContentBlock.id x) (opt_id block)
  then let* now := Date_now_toISOString in ret (merge_block x block now)
  else ret x.

Definition upsertBlock (block : option ContentBlockPatch.t) : M unit :=
  if negb (truthy_opt (opt_id block)) then
    let* i := uid "blk" in
    let* now := Date_now_toISOString in
    let b := {| ContentBlock.id := i;
                ContentBlock.title := or_default (opt_title block) "Nuevo bloque";
                ContentBlock.body :=
                  or_default (opt_body block) "Escribe contenido en **Markdown**.";
                ContentBlock.updatedAt := now |} in
    setContentBlocks (λ p, ret (b :: p))
  else
    setContentBlocks (λ p, Array_map (upsertBlock_cb block) p).

Definition deleteBlock (id : string) : M unit :=
  setContentBlocks (λ p,
    ret (List.filter (λ x, negb (String.eqb (ContentBlock.id x) id)) p)).

(* ===================================================================== *)
(** ** Strings *)
(* ===================================================================== *)

Definition is_upper (c : ascii) : bool :=
  (65 <=? nat_of_ascii c) && (nat_of_ascii c <=? 90).

Definition lower_char (c : ascii) : ascii :=
  if is_upper c then ascii_of_nat (nat_of_ascii c + 32) else c.

(** [s.toLowerCase()] *)
Fixpoint toLowerCase (s : string) : string :=
  match s with
  | EmptyString => EmptyString
  | String c s' => String (lower_char c) (toLowerCase s')
  end.

(** The number of bytes of the white space character [s] starts with, [0]
    when it starts with none. White space is what [trim] strips: TAB, LF, VT,
    FF, CR, SP, and in UTF-8 U+00A0, U+1680, U+2000 to U+200A, U+2028,
    U+2029, U+202F, U+205F, U+3000 and U+FEFF. *)
Definition space_width (s : string) : nat :=
  match s with
  | EmptyString => 0
  | String c r =>
      let n := nat_of_ascii c in
      if ((9 <=? n) && (n <=? 13)) || (n =? 32) then 1
      else
        match r with
        | String d r' =>
            let m := nat_of_ascii d in
            if (n =? 194) && (m =? 160) then 2
            else
              match r' with
              | String e _ =>
                  let k := nat_of_ascii e in
                  if (n =? 225) && (m =? 154) && (k =? 128) then 3
                  else if (n =? 226) && (m =? 128)
                          && (((128 <=? k) && (k <=? 138)) || (k =? 168) || (k =? 169)
                              || (k =? 175)) then 3
                  else if (n =? 226) && (m =? 129) && (k =? 159) then 3
                  else if (n =? 227) && (m =? 128) && (k =? 128) then 3
                  else if (n =? 239) && (m =? 187) && (k =? 191) then 3
                  else 0
              | EmptyString => 0
              end
        | EmptyString => 0
        end
  end.

Fixpoint drop_bytes (n : nat) (s : string) : string :=
  match n, s with
  | S n', String _ s' => drop_bytes n' s'
  | _, _ => s
  end.

Fixpoint trimStart_from (fuel : nat) (s : string) : string :=
  match fuel with
  | O => s
  | S fuel' =>
      match space_width s with
      | O => s
      | w => trimStart_from fuel' (drop_bytes w s)
      end
  end.

Definition trimStart (s : string) : string := trimStart_from (String.length s) s.

(** [s], cut where only white space follows. *)
Fixpoint trimEnd (s : string) : string :=
  match s with
  | EmptyString => EmptyString
  | String c s' =>
      if String.eqb (trimStart s) "" then EmptyString else String c (trimEnd s')
  end.

(** [s.trim()] *)
Definition trim (s : string) : string := trimEnd (trimStart s).

(** [s.includes(q)]: [q] occurs in [s] as a contiguous substring. *)
Fixpoint includes (s q : string) : bool :=
  String.prefix q s ||
  match s with
  | EmptyString => false
  | String _ s' => includes s' q
  end.

(* ===================================================================== *)
(** ** Arrays *)
(* ===================================================================== *)

(** [l.indexOf(p)]: the first position of [p], or [-1]. *)
Definition indexOf (l : list string) (p : string) : Z :=
  match list_find (λ x, x = p) l with
  | Some (i, _) => Z.of_nat i
  | None => (-1)%Z
  end.

(** [Array.prototype.sort(cmp)]. The comparator returns a number, [None]
    standing for [NaN], which the sort reads as [+0]. The sort is stable:
    an element moves in front of another one only when the comparator says it
    is strictly smaller. It is written as an insertion sort; with a
    comparator that orders by a key every stable sort gives the same list
    ([Array_sort_unique]). *)
Definition SortCompare {A} (cmp : A → A → option Z) (x y : A) : Z :=
  match cmp x y with
  | Some z => z
  | None => 0%Z
  end.

Fixpoint sort_insert {A} (cmp : A → A → option Z) (x : A) (l : list A) : list A :=
  match l with
  | [] => [x]
  | y :: l' =>
      if (SortCompare cmp x y <=? 0)%Z then x :: l else y :: sort_insert cmp x l'
  end.

Definition Array_sort {A} (cmp : A → A → option Z) (l : list A) : list A :=
  foldr (sort_insert cmp) [] l.

(* ===================================================================== *)
(** ** Derivados UI: the QueryEngine *)
(* ===================================================================== *)

(** [statusFilter: Status | "Todos"] and [sortBy: "fecha" | "prioridad"] *)
Inductive StatusFilter := Todos | SoloEstado (s : Status).
Inductive SortBy := fecha | prioridad.

(** [[i.title, i.description, i.category, i.server, i.priority, i.status,
      i.reporter?.discord, i.reporter?.email]] *)
Definition search_fields (i : Incident.t) : list (option string) :=
  [ Some (Incident.title i); Some (Incident.description i);
    Some (Incident.category i); Some (Incident.server i);
    Some (Incident.priority i); Some (Status_str (Incident.status i));
    Incident.reporter i ≫= Reporter.discord;
    Incident.reporter i ≫= Reporter.email ].

(** [.filter(Boolean)] on optional strings: drops [undefined] and [""]. *)
Definition filter_Boolean (l : list (option string)) : list string :=
  omap (λ o, match o with
             | Some s => if truthy s then Some s else None
             | None => None
             end) l.

(** [fields.filter(Boolean).some((v) => String(v).toLowerCase().includes(q))] *)
Definition matches (q : string) (i : Incident.t) : bool :=
  existsb (λ v, includes (toLowerCase v) q) (filter_Boolean (search_fields i)).

(** The filter steps of [filtered]: text, status, priority. *)
Definition apply_filters (incidents : list Incident.t) (query : string)
    (statusFilter : StatusFilter) (priorityFilter : string) : list Incident.t :=
  let list := incidents in
  let list :=
    if truthy (trim query)
    then let q := toLowerCase query in List.filter (matches q) list
    else list in
  let list :=
    match statusFilter with
    | Todos => list
    | SoloEstado s => List.filter (λ i, Status_eqb (Incident.status i) s) list
    end in
  if negb (String.eqb priorityFilter "Todas")
  then List.filter (λ i, String.eqb (Incident.priority i) priorityFilter) list
  else list.

(** [const rank = (p) => settings.priorities.indexOf(p)] and
    [(a, b) => rank(b.priority) - rank(a.priority)] *)
Definition rank (priorities : list string) (p : string) : Z := indexOf priorities p.

Definition cmp_prioridad (priorities : list string) (a b : Incident.t) : option Z :=
  Some (rank priorities (Incident.priority b) - rank priorities (Incident.priority a))%Z.

Section QueryEngine.
(** [+new Date(s)]: the time value of a date string in milliseconds, [None]
    for an invalid date ([NaN]). *)
Variable Date_valueOf : string → option Z.

(** [(a, b) => +new Date(b.createdAt) - +new Date(a.createdAt)] *)
Definition cmp_fecha (a b : Incident.t) : option Z :=
  match Date_valueOf (Incident.createdAt b), Date_valueOf (Incident.createdAt a) with
  | Some tb, Some ta => Some (tb - ta)%Z
  | _, _ => None
  end.

Definition filtered (incidents : list Incident.t) (query : string)
    (statusFilter : StatusFilter) (priorityFilter : string) (sortBy : SortBy)
    (priorities : list string) : list Incident.t :=
  let list := apply_filters incidents query statusFilter priorityFilter in
  match sortBy with
  | fecha => Array_sort cmp_fecha list
  | prioridad => Array_sort (cmp_prioridad priorities) list
  end.
End QueryEngine.

(* ===================================================================== *)
(** ** Dates *)
(* ===================================================================== *)

Definition digit (c : ascii) : option Z :=
  let n := nat_of_ascii c in
  if (48 <=? n) && (n <=? 57) then Some (Z.of_nat (n - 48)) else None.

(** Reads exactly [n] decimal digits. *)
Fixpoint read_digits (n : nat) (acc : Z) (s : string) : option (Z * string) :=
  match n with
  | O => Some (acc, s)
  | S n' =>
      match s with
      | String c s' =>
          match digit c with
          | Some d => read_digits n' (10 * acc + d)%Z s'
          | None => None
          end
      | EmptyString => None
      end
  end.

Definition expect (c : ascii) (s : string) : option string :=
  match s with
  | String c' s' => if Ascii.eqb c c' then Some s' else None
  | EmptyString => None
  end.

Definition is_leap (y : Z) : bool :=
  ((y mod 4 =? 0) && negb (y mod 100 =? 0) || (y mod 400 =? 0))%Z.

Definition days_in_month (y m : Z) : Z :=
  if (m =? 2)%Z then (if is_leap y then 29 else 28)%Z
  else if ((m =? 4) || (m =? 6) || (m =? 9) || (m =? 11))%Z then 30%Z
  else 31%Z.

(** Days from 1970-01-01 to the civil date [y]-[m]-[d]. *)
Definition days_from_civil (y m d : Z) : Z :=
  let y' := (if m <=? 2 then y - 1 else y)%Z in
  let era := (y' / 400)%Z in
  let yoe := (y' - era * 400)%Z in
  let mp := ((m + 9) mod 12)%Z in
  let doy := ((153 * mp + 2) / 5 + d - 1)%Z in
  let doe := (yoe * 365 + yoe / 4 - yoe / 100 + doy)%Z in
  (era * 146097 + doe - 719468)%Z.

(** An instance of [Date_valueOf]: the time value of a string in the format
    [toISOString] writes, [YYYY-MM-DDTHH:mm:ss.sssZ]; other strings are
    invalid dates for it. *)
Definition Date_parse_ISO (s : string) : option Z :=
  '(y, s) ← read_digits 4 0 s; s ← expect "-" s;
  '(mo, s) ← read_digits 2 0 s; s ← expect "-" s;
  '(d, s) ← read_digits 2 0 s; s ← expect "T" s;
  '(h, s) ← read_digits 2 0 s; s ← expect ":" s;
  '(mi, s) ← read_digits 2 0 s; s ← expect ":" s;
  '(se, s) ← read_digits 2 0 s; s ← expect "." s;
  '(ms, s) ← read_digits 3 0 s; s ← expect "Z" s;
  if (String.eqb s "" && (1 <=? mo) && (mo <=? 12) && (1 <=? d)
      && (d <=? days_in_month y mo) && (h <=? 23) && (mi <=? 59) && (se <=? 59))%Z
  then Some ((((days_from_civil y mo d * 24 + h) * 60 + mi) * 60 + se) * 1000 + ms)%Z
  else None.

(* ===================================================================== *)
(** ** JSON *)
(* ===================================================================== *)

(** The values [JSON.parse] returns and [JSON.stringify] writes. A number is
    an integer (the only numbers of the data model are byte counts); the
    properties of an object are kept in insertion order. *)
#[local] Unset Elimination Schemes.
Inductive value :=
| VNull
| VBool (b : bool)
| VNum (n : Z)
| VStr (s : string)
| VArr (vs : list value)
| VObj (ms : list (string * value)).
#[local] Set Elimination Schemes.

Definition dquote : ascii := "034"%char.
Definition backslash : ascii := "092"%char.

Definition hex_digit (n : nat) : ascii :=
  if n <? 10 then ascii_of_nat (48 + n) else ascii_of_nat (87 + n).

(** [QuoteJSONString]: the quote and the backslash are escaped, the control
    characters are written [\b], [\t], [\n], [\f], [\r] or [\u00xx]. *)
Definition escape_char (c : ascii) : string :=
  let n := nat_of_ascii c in
  if Ascii.eqb c dquote then String backslash (String dquote "")
  else if Ascii.eqb c backslash then String backslash (String backslash "")
  else if n =? 8 then String backslash "b"
  else if n =? 9 then String backslash "t"
  else if n =? 10 then String backslash "n"
  else if n =? 12 then String backslash "f"
  else if n =? 13 then String backslash "r"
  else if n <? 32 then
    String backslash
      (String "u" (String "0" (String "0"
         (String (hex_digit (n / 16)) (String (hex_digit (n mod 16)) "")))))
  else String c "".

Fixpoint escape (s : string) : string :=
  match s with
  | EmptyString => EmptyString
  | String c s' => escape_char c +:+ escape s'
  end.

Definition quote (s : string) : string :=
  String dquote (escape s +:+ String dquote "").

Definition string_of_Z (z : Z) : string := NilZero.string_of_int (Z.to_int z).

Definition stringify_elems (f : value → string) : list value → string :=
  fix go vs :=
    match vs with
    | [] => "]"
    | v :: vs' => "," +:+ f v +:+ go vs'
    end.

Definition stringify_members (f : value → string) : list (string * value) → string :=
  fix go ms :=
    match ms with
    | [] => "}"
    | (k, v) :: ms' => "," +:+ quote k +:+ ":" +:+ f v +:+ go ms'
    end.

(** [JSON.stringify(v)] *)
Fixpoint JSON_stringify (v : value) : string :=
  match v with
  | VNull => "null"
  | VBool true => "true"
  | VBool false => "false"
  | VNum n => string_of_Z n
  | VStr s => quote s
  | VArr [] => "[]"
  | VArr (v :: vs) => "[" +:+ JSON_stringify v +:+ stringify_elems JSON_stringify vs
  | VObj [] => "{}"
  | VObj ((k, v) :: ms) =>
      "{" +:+ quote k +:+ ":" +:+ JSON_stringify v +:+ stringify_members JSON_stringify ms
  end.

(** *** Parsing *)

Definition is_ws (c : ascii) : bool :=
  Ascii.eqb c " " || Ascii.eqb c "009" || Ascii.eqb c "010" || Ascii.eqb c "013".

Fixpoint skip_ws (s : string) : string :=
  match s with
  | EmptyString => EmptyString
  | String c s' => if is_ws c then skip_ws s' else s
  end.

Fixpoint expect_str (lit s : string) : option string :=
  match lit with
  | EmptyString => Some s
  | String c lit' =>
      match s with
      | String c' s' => if Ascii.eqb c c' then expect_str lit' s' else None
      | EmptyString => None
      end
  end.

Definition hex_value (c : ascii) : option nat :=
  let n := nat_of_ascii c in
  if (48 <=? n) && (n <=? 57) then Some (n - 48)
  else if (97 <=? n) && (n <=? 102) then Some (n - 87)
  else if (65 <=? n) && (n <=? 70) then Some (n - 55)
  else None.

(** The bytes (UTF-8) of the code unit a [\uXXXX] escape denotes; a
    surrogate is written as the three bytes of its own code. *)
Definition utf8 (cp : nat) : string :=
  if cp <? 128 then String (ascii_of_nat cp) ""
  else if cp <? 2048 then
    String (ascii_of_nat (192 + cp / 64)) (String (ascii_of_nat (128 + cp mod 64)) "")
  else
    String (ascii_of_nat (224 + cp / 4096))
      (String (ascii_of_nat (128 + (cp / 64) mod 64))
         (String (ascii_of_nat (128 + cp mod 64)) "")).

Definition unescape (e : ascii) : option ascii :=
  if Ascii.eqb e dquote then Some dquote
  else if Ascii.eqb e backslash then Some backslash
  else if Ascii.eqb e "/" then Some "/"%char
  else if Ascii.eqb e "b" then Some "008"%char
  else if Ascii.eqb e "t" then Some "009"%char
  else if Ascii.eqb e "n" then Some "010"%char
  else if Ascii.eqb e "f" then Some "012"%char
  else if Ascii.eqb e "r" then Some "013"%char
  else None.

(** The characters of a string literal, after its opening quote, up to and
    including the closing one. *)
Fixpoint parse_chars (s : string) : option (string * string) :=
  match s with
  | EmptyString => None
  | String c r =>
      if Ascii.eqb c dquote then Some (EmptyString, r)
      else if Ascii.eqb c backslash then
        match r with
        | String e r' =>
            if Ascii.eqb e "u" then
              match r' with
              | String h1 (String h2 (String h3 (String h4 r''))) =>
                  a ← hex_value h1; b ← hex_value h2;
                  c ← hex_value h3; d ← hex_value h4;
                  '(str, rest) ← parse_chars r'';
                  Some (utf8 (((a * 16 + b) * 16 + c) * 16 + d) +:+ str, rest)
              | _ => None
              end
            else
              c' ← unescape e;
              '(str, rest) ← parse_chars r';
              Some (String c' str, rest)
        | EmptyString => None
        end
      else if nat_of_ascii c <? 32 then None
      else '(str, rest) ← parse_chars r; Some (String c str, rest)
  end.

Definition is_num_char (c : ascii) : bool :=
  Ascii.eqb c "-" || ((48 <=? nat_of_ascii c) && (nat_of_ascii c <=? 57)).

(** The longest prefix of number characters, and what follows it. *)
Fixpoint span_num (s : string) : string * string :=
  match s with
  | EmptyString => (EmptyString, EmptyString)
  | String c s' =>
      if is_num_char c
      then let '(tok, rest) := span_num s' in (String c tok, rest)
      else (EmptyString, s)
  end.

(** An integer literal: no leading zeros, no sign but [-]. Literals with a
    fraction or an exponent are not numbers of this model. *)
Definition parse_number (s : string) : option (value * string) :=
  let '(tok, rest) := span_num s in
  d ← NilZero.int_of_string tok;
  let z := Z.of_int d in
  if String.eqb tok (string_of_Z z) || String.eqb tok "-0"
  then Some (VNum z, rest) else None.

(** [o[k] = v] on the property list of an object. *)
Fixpoint obj_set (k : string) (v : value) (ms : list (string * value))
  : list (string * value) :=
  match ms with
  | [] => [(k, v)]
  | (k', v') :: ms' =>
      if String.eqb k' k then (k', v) :: ms' else (k', v') :: obj_set k v ms'
  end.

Definition obj_of_members (ms : list (string * value)) : list (string * value) :=
  foldl (λ acc kv, obj_set kv.1 kv.2 acc) [] ms.

Definition parse_member (pv : string → option (value * string)) (s : string)
  : option ((string * value) * string) :=
  match skip_ws s with
  | String c r =>
      if Ascii.eqb c dquote then
        '(k, r1) ← parse_chars r;
        match skip_ws r1 with
        | String c2 r2 =>
            if Ascii.eqb c2 ":" then '(v, r3) ← pv r2; Some ((k, v), r3) else None
        | EmptyString => None
        end
      else None
  | EmptyString => None
  end.

Fixpoint parse_value (fuel : nat) (s : string) {struct fuel} : option (value * string) :=
  match fuel with
  | O => None
  | S fuel =>
      match skip_ws s with
      | EmptyString => None
      | String c r =>
          if Ascii.eqb c "n" then r ← expect_str "ull" r; Some (VNull, r)
          else if Ascii.eqb c "t" then r ← expect_str "rue" r; Some (VBool true, r)
          else if Ascii.eqb c "f" then r ← expect_str "alse" r; Some (VBool false, r)
          else if Ascii.eqb c dquote then '(str, r) ← parse_chars r; Some (VStr str, r)
          else if Ascii.eqb c "[" then
            match skip_ws r with
            | String c' r' =>
                if Ascii.eqb c' "]" then Some (VArr [], r')
                else
                  '(v, r1) ← parse_value fuel r;
                  '(vs, r2) ← parse_elems fuel r1;
                  Some (VArr (v :: vs), r2)
            | EmptyString => None
            end
          else if Ascii.eqb c "{" then
            match skip_ws r with
            | String c' r' =>
                if Ascii.eqb c' "}" then Some (VObj [], r')
                else
                  '(m, r1) ← parse_member (parse_value fuel) r;
                  '(ms, r2) ← parse_members fuel r1;
                  Some (VObj (obj_of_members (m :: ms)), r2)
            | EmptyString => None
            end
          else parse_number (String c r)
      end
  end
with parse_elems (fuel : nat) (s : string) {struct fuel} : option (list value * string) :=
  match fuel with
  | O => None
  | S fuel =>
      match skip_ws s with
      | EmptyString => None
      | String c r =>
          if Ascii.eqb c "]" then Some ([], r)
          else if Ascii.eqb c "," then
            '(v, r1) ← parse_value fuel r;
            '(vs, r2) ← parse_elems fuel r1;
            Some (v :: vs, r2)
          else None
      end
  end
with parse_members (fuel : nat) (s : string) {struct fuel}
  : option (list (string * value) * string) :=
  match fuel with
  | O => None
  | S fuel =>
      match skip_ws s with
      | EmptyString => None
      | String c r =>
          if Ascii.eqb c "}" then Some ([], r)
          else if Ascii.eqb c "," then
            '(m, r1) ← parse_member (parse_value fuel) r;
            '(ms, r2) ← parse_members fuel r1;
            Some (m :: ms, r2)
          else None
      end
  end.

(** What evaluating an expression ends in: a value, or a thrown error. *)
Inductive exn := SyntaxError.

Inductive completion (A : Type) :=
| Normal (a : A)
| Throw (e : exn).
Arguments Normal {A} a.
Arguments Throw {A} e.

(** [try { body } catch { handler }] *)
Definition try_catch {A} (body : completion A) (handler : exn → completion A)
  : completion A :=
  match body with
  | Normal a => Normal a
  | Throw e => handler e
  end.

(** [JSON.parse(text)]: one value, with white space around it, or a
    [SyntaxError]. *)
Definition JSON_parse (text : string) : completion value :=
  match parse_value (String.length text) text with
  | Some (v, rest) =>
      if String.eqb (skip_ws rest) "" then Normal v else Throw SyntaxError
  | None => Throw SyntaxError
  end.

(* ===================================================================== *)
(** ** Persistence *)
(* ===================================================================== *)

(** [localStorage.setItem(key, JSON.stringify(value))] *)
Definition saveLS (key : string) (value : value) : M unit :=
  λ w, (tt, mkWorld (incidents w) (contentBlocks w) (settings w)
                    (<[key := JSON_stringify value]> (localStorage w))
                    (toasts w) (clock w) (ticks w) (entropy w) (draws w)).

(** [loadLS(key, fallback)] on the storage [store]:
    [try { const raw = localStorage.getItem(key);
           return raw ? JSON.parse(raw) : fallback } catch { return fallback }] *)
Definition loadLS (key : string) (fallback : value) (store : gmap string string)
  : completion value :=
  try_catch
    (let raw := store !! key in
     match raw with
     | Some text => if truthy text then JSON_parse text else Normal fallback
     | None => Normal fallback
     end)
    (λ _, Normal fallback).

(* ===================================================================== *)
(** ** The collections as JSON values *)
(* ===================================================================== *)

(** [to_value x] is the value the object [x] is for [JSON.stringify]: a
    property that is absent or [undefined] is not written. [of_value v] reads
    a parsed value at the type [T], as the cast [JSON.parse(raw) as T] takes
    it to be; it is [None] when [v] does not have the shape of [T]. *)
Class JSONData (T : Type) := {
  to_value : T → value;
  of_value : value → option T;
}.

Fixpoint obj_get (k : string) (ms : list (string * value)) : option value :=
  match ms with
  | [] => None
  | (k', v) :: ms' => if String.eqb k' k then Some v else obj_get k ms'
  end.

Definition field {T} `{JSONData T} (k : string) (ms : list (string * value)) : option T :=
  obj_get k ms ≫= of_value.

Definition optional_field {T} `{JSONData T} (k : string) (ms : list (string * value))
  : option (option T) :=
  match obj_get k ms with
  | None => Some None
  | Some v => Some <$> of_value v
  end.

Definition property {T} `{JSONData T} (k : string) (x : T) : list (string * value) :=
  [(k, to_value x)].

Definition optional_property {T} `{JSONData T} (k : string) (o : option T)
  : list (string * value) :=
  match o with
  | Some x => [(k, to_value x)]
  | None => []
  end.

#[export] Instance string_JSONData : JSONData string := {|
  to_value s := VStr s;
  of_value v := match v with VStr s => Some s | _ => None end;
|}.

#[export] Instance number_JSONData : JSONData Z := {|
  to_value n := VNum n;
  of_value v := match v with VNum n => Some n | _ => None end;
|}.

#[export] Instance Array_JSONData {T} `{JSONData T} : JSONData (list T) := {|
  to_value l := VArr (to_value <$> l);
  of_value v := match v with VArr vs => mapM of_value vs | _ => None end;
|}.

Definition Status_of_string (s : string) : option Status :=
  if String.eqb s "Abierta" then Some Abierta
  else if String.eqb s "En progreso" then Some En_progreso
  else if String.eqb s "Resuelta" then Some Resuelta
  else if String.eqb s "Cerrada" then Some Cerrada
  else None.

#[export] Instance Status_JSONData : JSONData Status := {|
  to_value s := VStr (Status_str s);
  of_value v := match v with VStr s => Status_of_string s | _ => None end;
|}.

#[export] Instance Attachment_JSONData : JSONData Attachment.t := {|
  to_value a :=
    VObj (property "id" (Attachment.id a) ++ property "name" (Attachment.name a)
          ++ property "type" (Attachment.type a) ++ property "size" (Attachment.size a)
          ++ property "url" (Attachment.url a));
  of_value v :=
    match v with
    | VObj ms =>
        id ← field "id" ms; name ← field "name" ms; type ← field "type" ms;
        size ← field "size" ms; url ← field "url" ms;
        Some (Attachment.mk id name type size url)
    | _ => None
    end;
|}.

#[export] Instance Reporter_JSONData : JSONData Reporter.t := {|
  to_value r :=
    VObj (optional_property "email" (Reporter.email r)
          ++ optional_property "discord" (Reporter.discord r));
  of_value v :=
    match v with
    | VObj ms =>
        email ← optional_field "email" ms; discord ← optional_field "discord" ms;
        Some (Reporter.mk email discord)
    | _ => None
    end;
|}.

#[export] Instance Incident_JSONData : JSONData Incident.t := {|
  to_value i :=
    VObj (property "id" (Incident.id i)
          ++ property "createdAt" (Incident.createdAt i)
          ++ property "updatedAt" (Incident.updatedAt i)
          ++ property "title" (Incident.title i)
          ++ property "description" (Incident.description i)
          ++ property "category" (Incident.category i)
          ++ property "server" (Incident.server i)
          ++ property "priority" (Incident.priority i)
          ++ property "attachments" (Incident.attachments i)
          ++ optional_property "reporter" (Incident.reporter i)
          ++ property "status" (Incident.status i));
  of_value v :=
    match v with
    | VObj ms =>
        id ← field "id" ms; title ← field "title" ms;
        description ← field "description" ms; category ← field "category" ms;
        server ← field "server" ms; priority ← field "priority" ms;
        status ← field "status" ms; reporter ← optional_field "reporter" ms;
        attachments ← field "attachments" ms;
        createdAt ← field "createdAt" ms; updatedAt ← field "updatedAt" ms;
        Some (Incident.mk id title description category server priority status
                          reporter attachments createdAt updatedAt)
    | _ => None
    end;
|}.

#[export] Instance ContentBlock_JSONData : JSONData ContentBlock.t := {|
  to_value b :=
    VObj (property "id" (ContentBlock.id b) ++ property "title" (ContentBlock.title b)
          ++ property "body" (ContentBlock.body b)
          ++ property "updatedAt" (ContentBlock.updatedAt b));
  of_value v :=
    match v with
    | VObj ms =>
        id ← field "id" ms; title ← field "title" ms; body ← field "body" ms;
        updatedAt ← field "updatedAt" ms;
        Some (ContentBlock.mk id title body updatedAt)
    | _ => None
    end;
|}.

#[export] Instance Settings_JSONData : JSONData Settings.t := {|
  to_value s :=
    VObj (property "categories" (Settings.categories s)
          ++ property "servers" (Settings.servers s)
          ++ property "priorities" (Settings.priorities s));
  of_value v :=
    match v with
    | VObj ms =>
        categories ← field "categories" ms; servers ← field "servers" ms;
        priorities ← field "priorities" ms;
        Some (Settings.mk categories servers priorities)
    | _ => None
    end;
|}.

(** [loadLS<T>(key, fallback)]: the loaded value at the type [T]. *)
Definition loadLS_as {T} `{JSONData T} (key : string) (fallback : T)
    (store : gmap string string) : completion (option T) :=
  match loadLS key (to_value fallback) store with
  | Normal v => Normal (of_value v)
  | Throw e => Throw e
  end.

(** The three [useState(() => loadLS(...))] of [KaliumIncidentsApp]. *)
Definition initial_incidents (store : gmap string string) : completion value :=
  loadLS LS_KEYS.incidents (VArr []) store.
Definition initial_contentBlocks (store : gmap string string) : completion value :=
  loadLS LS_KEYS.contentBlocks (VArr []) store.
Definition initial_settings (store : gmap string string) : completion value :=
  loadLS LS_KEYS.settings (to_value DEFAULT_SETTINGS) store.

(** The three [useEffect(() => saveLS(...))], run after a change of state. *)
Definition persist : M unit :=
  (λ w, saveLS LS_KEYS.incidents (to_value (incidents w)) w);;
  (λ w, saveLS LS_KEYS.contentBlocks (to_value (contentBlocks w)) w);;
  (λ w, saveLS LS_KEYS.settings (to_value (settings w)) w).

(** The property lists that are objects: an object has one property of a
    name. These are the values [JSON.stringify] writes in full. *)
Fixpoint JSON_safe (v : value) : bool :=
  match v with
  | VArr vs => forallb JSON_safe vs
  | VObj ms => bool_decide (NoDup (fst <$> ms)) && forallb (λ kv, JSON_safe (snd kv)) ms
  | _ => true
  end.

(* ===================================================================== *)
(** ** Callers in the Presentation layer *)
(* ===================================================================== *)

(** Portal tab: [onSubmit={(payload) => createIncident({ ...payload, status: "Abierta" })}] *)
Definition Portal_onSubmit (payload : IncidentData.t) : M unit :=
  createIncident
    {| IncidentData.title := IncidentData.title payload;
       IncidentData.description := IncidentData.description payload;
       IncidentData.category := IncidentData.category payload;
       IncidentData.server := IncidentData.server payload;
       IncidentData.priority := IncidentData.priority payload;
       IncidentData.reporter := IncidentData.reporter payload;
       IncidentData.attachments := IncidentData.attachments payload;
       IncidentData.status := Abierta |}.

(** [onStatusChange={(id, status) => updateIncident(id, { status })}] *)
Definition onStatusChange (id : string) (status : Status) : M unit :=
  updateIncident id
    (IncidentPatch.mk None None None None None None (Some status) None None None None).

(** [EditIncidentForm]: [onUpdate({ title, description, status })] on the
    incident that is open in the detail dialog. *)
Definition EditIncidentForm_save (id title description : string) (status : Status)
  : M unit :=
  updateIncident id
    (IncidentPatch.mk None (Some title) (Some description) None None None
                      (Some status) None None None None).

(** Content tab: [onCreate={() => upsertBlock({})}] *)
Definition onCreate : M unit := upsertBlock (Some ContentBlockPatch.empty).

(* ===================================================================== *)
(** ** Vocabulary of the statements *)
(* ===================================================================== *)

(** The world after [n] more readings of the clock. *)
Definition advance (n : nat) (w : World) : World :=
  mkWorld (incidents w) (contentBlocks w) (settings w) (localStorage w)
          (toasts w) (clock w) (n + ticks w) (entropy w) (draws w).

(** Number of records of [l] whose id is [id]. *)
Definition occurrences (id : string) (l : list Incident.t) : nat :=
  length (List.filter (λ it, String.eqb (Incident.id it) id) l).

(** A property of the patch that is absent leaves the record's one as it was,
    a property that is present replaces it; [updatedAt] is left out. *)
Definition patched {A} (old : A) (p : option A) (new : A) : Prop :=
  match p with
  | Some v => new = v
  | None => new = old
  end.

Definition only_patch_changes (patch : IncidentPatch.t) (it it' : Incident.t) : Prop :=
  patched (Incident.id it) (IncidentPatch.id patch) (Incident.id it') ∧
  patched (Incident.title it) (IncidentPatch.title patch) (Incident.title it') ∧
  patched (Incident.description it) (IncidentPatch.description patch)
          (Incident.description it') ∧
  patched (Incident.category it) (IncidentPatch.category patch) (Incident.category it') ∧
  patched (Incident.server it) (IncidentPatch.server patch) (Incident.server it') ∧
  patched (Incident.priority it) (IncidentPatch.priority patch) (Incident.priority it') ∧
  patched (Incident.status it) (IncidentPatch.status patch) (Incident.status it') ∧
  patched (Incident.reporter it) (IncidentPatch.reporter patch) (Incident.reporter it') ∧
  patched (Incident.attachments it) (IncidentPatch.attachments patch)
          (Incident.attachments it') ∧
  patched (Incident.createdAt it) (IncidentPatch.createdAt patch) (Incident.createdAt it').

(** Sample worlds and inputs. *)
Definition sample_world : World :=
  mkWorld [] [] DEFAULT_SETTINGS ∅ []
          (λ n, if n =? 0 then "2024-05-01T10:00:00.000Z" else "2024-05-01T10:00:01.000Z") 0
          (λ _, "0.4fzyo82mvyr") 0.

Definition sample_data (s : Status) : IncidentData.t :=
  {| IncidentData.title := "No puedo entrar";
     IncidentData.description := "El lobby me expulsa";
     IncidentData.category := "General";
     IncidentData.server := "Lobby";
     IncidentData.priority := "Alta";
     IncidentData.status := s;
     IncidentData.reporter := Some (Reporter.mk None (Some "steve#0001"));
     IncidentData.attachments := [] |}.

Definition sample_incident (id : string) : Incident.t :=
  new_incident id "2024-04-30T08:00:00.000Z" (sample_data Abierta).

Definition sample_world2 : World :=
  mkWorld [sample_incident "inc_a"; sample_incident "inc_b"] [] DEFAULT_SETTINGS ∅ []
          (clock sample_world) 0 (entropy sample_world) 0.




(** The incidents of the scenario: A created at t=1, B at t=2, C at t=3. *)
Definition scenario_incident (id createdAt priority : string) : Incident.t :=
  {| Incident.id := id;
     Incident.title := id;
     Incident.description := "-";
     Incident.category := "General";
     Incident.server := "Lobby";
     Incident.priority := priority;
     Incident.status := Abierta;
     Incident.reporter := None;
     Incident.attachments := [];
     Incident.createdAt := createdAt;
     Incident.updatedAt := createdAt |}.

Definition inc_A := scenario_incident "A" "1970-01-01T00:00:00.001Z" "Alta".
Definition inc_B := scenario_incident "B" "1970-01-01T00:00:00.002Z" "Baja".
Definition inc_C := scenario_incident "C" "1970-01-01T00:00:00.003Z" "Crítica".

(** The time value of an incident's [createdAt]. *)
Definition created (Date_valueOf : string → option Z) (i : Incident.t) : option Z :=
  Date_valueOf (Incident.createdAt i).

(** On the elements of [l] the comparator [cmp a b] is [key b - key a]: it
    orders by decreasing key. *)
Definition compares_keys {A} (cmp : A → A → option Z) (key : A → Z) (l : list A) : Prop :=
  ∀ a b, a ∈ l → b ∈ l → SortCompare cmp a b = (key b - key a)%Z.

(** [a] may stand before [b] in a list that is non-increasing in [key]. *)
Definition key_ge {A} (key : A → Z) (a b : A) : Prop := (key b ≤ key a)%Z.

(** The time value of [createdAt], read as [0] when the date is invalid. *)
Definition created_key (Date_valueOf : string → option Z) (i : Incident.t) : Z :=
  default 0%Z (created Date_valueOf i).

(** The rank of an incident's priority label in the vocabulary. *)
Definition rank_key (priorities : list string) (i : Incident.t) : Z :=
  rank priorities (Incident.priority i).

(** The incidents of [l] created at time [t], in their order in [l]. *)
Definition created_at (Date_valueOf : string → option Z) (t : Z) (l : list Incident.t)
  : list Incident.t :=
  List.filter (λ i, created_key Date_valueOf i =? t)%Z l.

(** The incidents of [l] whose priority has rank [r], in their order in [l]. *)
Definition ranked (priorities : list string) (r : Z) (l : list Incident.t)
  : list Incident.t :=
  List.filter (λ i, rank_key priorities i =? r)%Z l.

(** [s] does not go on with a character of a number. *)
Definition ends_number (s : string) : bool :=
  match s with
  | EmptyString => true
  | String c _ => negb (is_num_char c)
  end.

(** Every character of [s] is one of a number. *)
Fixpoint all_num_chars (s : string) : bool :=
  match s with
  | EmptyString => true
  | String c s' => is_num_char c && all_num_chars s'
  end.

(** A character a written value may start with. *)
Definition starts_value (c : ascii) : bool :=
  is_num_char c || Ascii.eqb c "n" || Ascii.eqb c "t" || Ascii.eqb c "f"
  || Ascii.eqb c dquote || Ascii.eqb c "[" || Ascii.eqb c "{".

(** Parsing what [JSON.stringify v] wrote, followed by [rest], gives [v] back
    and leaves [rest], with any fuel that covers the length of the text. *)
Definition reads_back (v : value) : Prop :=
  JSON_safe v = true →
  ∀ fuel rest,
    String.length (JSON_stringify v) ≤ fuel → ends_number rest = true →
    parse_value fuel (JSON_stringify v +:+ rest) = Some (v, rest).

(** Reading at [T] what was written from [T] gives it back, and what is
    written from [T] is a value [JSON.stringify] writes in full. *)
Class JSONLaws (T : Type) `{JSONData T} := {
  of_to_value : ∀ x : T, of_value (to_value x) = Some x;
  to_value_safe : ∀ x : T, JSON_safe (to_value x) = true;
}.

(* ===================================================================== *)
(** ** Componentes auxiliares *)
(* ===================================================================== *)

(** [EditBlockDialog]: [onSave({ id: block.id, title, body })], which
    [ContentManager] passes to [upsertBlock]. *)
Definition EditBlockDialog_save (block : ContentBlock.t) (title body : string) : M unit :=
  upsertBlock
    (Some (ContentBlockPatch.mk (Some (ContentBlock.id block)) (Some title) (Some body) None)).

(** [QuickStats]: [STATUS_OPTIONS.map((s) => ({ status: s,
    count: incidents.filter((i) => i.status === s).length }))] *)
Definition QuickStats_byStatus (incidents : list Incident.t) : list (string * nat) :=
  map (λ s, (s, length (List.filter
                          (λ i, String.eqb (Status_str (Incident.status i)) s) incidents)))
      STATUS_OPTIONS.

(** [incidents.filter((i) => i.priority === "Crítica").length] *)
Definition QuickStats_critical (incidents : list Incident.t) : nat :=
  length (List.filter (λ i, String.eqb (Incident.priority i) "Crítica") incidents).

(** [s.split(sep)] for a separator of one character. *)
Fixpoint split_on (sep : ascii) (s : string) : list string :=
  match s with
  | EmptyString => [EmptyString]
  | String c s' =>
      if Ascii.eqb c sep then EmptyString :: split_on sep s'
      else
        match split_on sep s' with
        | piece :: pieces => String c piece :: pieces
        | [] => [String c EmptyString]
        end
  end.

(** [l.join(sep)] *)
Fixpoint join (sep : string) (l : list string) : string :=
  match l with
  | [] => EmptyString
  | [x] => x
  | x :: l' => x +:+ sep +:+ join sep l'
  end.

(** [text.split(",").map((s) => s.trim()).filter(Boolean)] *)
Definition parse_labels (text : string) : list string :=
  List.filter truthy (map trim (split_on "," text)).

Definition setSettings (s : Settings.t) : M unit :=
  λ w, (tt, mkWorld (incidents w) (contentBlocks w) s (localStorage w)
                    (toasts w) (clock w) (ticks w) (entropy w) (draws w)).

(** [SettingsDialog]: the three text inputs, filled from the settings when the
    dialog is mounted, and the "Guardar" button. *)
Module SettingsDialog.
Record t := mk {
  cats : string;
  srvs : string;
  pris : string;
}.

Definition initial (settings : Settings.t) : t :=
  {| cats := join ", " (Settings.categories settings);
     srvs := join ", " (Settings.servers settings);
     pris := join ", " (Settings.priorities settings) |}.

Definition save (d : t) : M unit :=
  setSettings {| Settings.categories := parse_labels (cats d);
                 Settings.servers := parse_labels (srvs d);
                 Settings.priorities := parse_labels (pris d) |}.
End SettingsDialog.

(** [IncidentForm]: its state, [handleFiles], [removeAttachment], [submit]. *)
Module IncidentForm.
Record t := mk {
  title : string;
  description : string;
  category : string;
  server : string;
  priority : string;
  email : string;
  discord : string;
  attachments : list Attachment.t;
}.

(** A [File] of the file input: its name, MIME type and size. *)
Record File := mkFile {
  file_name : string;
  file_type : string;
  file_size : Z;
}.

(** [s.trim() || undefined] *)
Definition trim_or_undefined (s : string) : option string :=
  if truthy (trim s) then Some (trim s) else None.

(** The payload [submit] hands to [onSubmit]. *)
Definition payload (st : t) : IncidentData.t :=
  {| IncidentData.title := trim (title st);
     IncidentData.description := trim (description st);
     IncidentData.category := category st;
     IncidentData.server := server st;
     IncidentData.priority := priority st;
     IncidentData.attachments := attachments st;
     IncidentData.reporter :=
       Some {| Reporter.email := trim_or_undefined (email st);
               Reporter.discord := trim_or_undefined (discord st) |};
     IncidentData.status := Abierta |}.

(** [submit(e)]: returns the state of the form after the event. *)
Definition submit (onSubmit : IncidentData.t → M unit) (st : t) : M t :=
  if negb (truthy (trim (title st))) || negb (truthy (trim (description st)))
  then ret st
  else
    onSubmit (payload st);;
    ret {| title := ""; description := ""; category := category st;
           server := server st; priority := priority st;
           email := ""; discord := ""; attachments := [] |}.

Section Files.
(** [URL.createObjectURL(f)] *)
Variable createObjectURL : File → string.

Definition attach (f : File) : M Attachment.t :=
  let* i := uid "att" in
  ret {| Attachment.id := i;
         Attachment.name := file_name f;
         Attachment.type := file_type f;
         Attachment.size := file_size f;
         Attachment.url := createObjectURL f |}.

(** [handleFiles(files)], [files] being [null] or a [FileList]: returns the
    attachments of the form after the event. *)
Definition handleFiles (files : option (list File)) (prev : list Attachment.t)
  : M (list Attachment.t) :=
  match files with
  | None => ret prev
  | Some fs => let* added := Array_map attach fs in ret (added ++ prev)%list
  end.
End Files.

Definition removeAttachment (id : string) (prev : list Attachment.t) : list Attachment.t :=
  List.filter (λ a, negb (String.eqb (Attachment.id a) id)) prev.
End IncidentForm.

(** The form of the Portal tab, whose [onSubmit] is [Portal_onSubmit]. *)
Definition Portal_submit (st : IncidentForm.t) : M IncidentForm.t :=
  IncidentForm.submit Portal_onSubmit st.

(* ===================================================================== *)
(** ** Vocabulary of the further statements *)
(* ===================================================================== *)

(** Number of blocks of [l] whose id is [id]. *)
Definition block_occurrences (id : string) (l : list ContentBlock.t) : nat :=
  length (List.filter (λ x, String.eqb (ContentBlock.id x) id) l).

(** The characters of a string. *)
Fixpoint chars (s : string) : list ascii :=
  match s with
  | EmptyString => []
  | String c s' => c :: chars s'
  end.

(** A label the settings dialog shows and reads back as it is: not empty,
    without a comma, without white space around it. *)
Definition clean_label (x : string) : Prop :=
  x ≠ "" ∧ ¬ In ","%char (chars x) ∧ trim x = x.

(** The count [QuickStats] shows for a status. *)
Definition status_count (s : Status) (l : list Incident.t) : nat :=
  length (List.filter (λ i, String.eqb (Status_str (Incident.status i)) (Status_str s)) l).


(** Every [createdAt] of the collection is a valid date, none later than
    [bound], and no [updatedAt] is earlier than its [createdAt]. *)
Definition times_ordered (Date_valueOf : string → option Z) (bound : Z)
    (l : list Incident.t) : Prop :=
  ∀ it, it ∈ l →
    ∃ tc tu, Date_valueOf (Incident.createdAt it) = Some tc ∧
             Date_valueOf (Incident.updatedAt it) = Some tu ∧
             (tc ≤ tu)%Z ∧ (tc ≤ bound)%Z.

(** The clock of the world gives valid dates and does not run backwards. *)
Definition clock_monotone (Date_valueOf : string → option Z) (T : nat → Z) (w : World)
  : Prop :=
  (∀ n, Date_valueOf (clock w n) = Some (T n)) ∧ (∀ n m, n ≤ m → (T n ≤ T m)%Z).

(** The collection is in by-date order: newest first. *)
Definition newest_first (Date_valueOf : string → option Z) (l : list Incident.t) : Prop :=
  (∀ i, i ∈ l → is_Some (created Date_valueOf i)) ∧
  StronglySorted (key_ge (created_key Date_valueOf)) l.

(** The test the three filter steps of [filtered] apply to an incident. *)
Definition keeps (query : string) (statusFilter : StatusFilter) (priorityFilter : string)
    (i : Incident.t) : bool :=
  (if truthy (trim query) then matches (toLowerCase query) i else true)
  && (match statusFilter with
      | Todos => true
      | SoloEstado s => Status_eqb (Incident.status i) s
      end)
  && (if negb (String.eqb priorityFilter "Todas")
      then String.eqb (Incident.priority i) priorityFilter else true).

(* ===================================================================== *)
(** * Store: creation, update and deletion *)
(* ===================================================================== *)

Lemma Array_map_updateIncident_run id patch l w :
  ∃ l', Array_map (updateIncident_cb id patch) l w = (l', advance (occurrences id l) w) ∧
        length l' = length l ∧
        ∀ i it, l !! i = Some it →
          l' !! i = Some (if String.eqb (Incident.id it) id
                          then merge_incident it patch
                                 (clock w (ticks w + occurrences id (take i l)))
                          else it).
Proof.
  revert w. induction l as [|x l IH]; intros w.
  - exists []. split; [by destruct w|]. split; [done|]. intros i it Hi. by destruct i.
  - cbn [Array_map]. unfold bind at 1, updateIncident_cb at 1.
    unfold occurrences. cbn [List.filter].
    destruct (String.eqb (Incident.id x) id) eqn:Hx.
    + unfold bind at 1, Date_now_toISOString, ret at 1.
      set (w1 := mkWorld _ _ _ _ _ _ (S (ticks w)) _ _).
      destruct (IH w1) as (l' & Hrun & Hlen & Hlook).
      unfold bind. rewrite Hrun.
      exists (merge_incident x patch (clock w (ticks w)) :: l'). split.
      { unfold ret, advance, occurrences. cbn. do 2 f_equal. lia. }
      split; [cbn; lia|].
      intros [|i] it Hi; cbn in Hi.
      * inversion Hi; subst it. rewrite Hx. cbn. do 3 f_equal. lia.
      * change ((merge_incident x patch (clock w (ticks w)) :: l') !! S i) with (l' !! i).
        rewrite (Hlook _ _ Hi). cbn [take]. unfold occurrences. cbn [List.filter].
        rewrite Hx. destruct (String.eqb (Incident.id it) id); [|done].
        do 3 f_equal. subst w1. cbn. lia.
    + unfold ret at 1.
      destruct (IH w) as (l' & Hrun & Hlen & Hlook).
      unfold bind. rewrite Hrun. exists (x :: l'). split; [done|]. split; [cbn; lia|].
      intros [|i] it Hi; cbn in Hi.
      * inversion Hi; subst it. by rewrite Hx.
      * change ((x :: l') !! S i) with (l' !! i).
        rewrite (Hlook _ _ Hi). cbn [take]. unfold occurrences. cbn [List.filter].
        by rewrite Hx.
Qed.

Lemma updateIncident_lookup id patch w i it :
  incidents w !! i = Some it →
  incidents (exec (updateIncident id patch) w) !! i =
    Some (if String.eqb (Incident.id it) id
          then merge_incident it patch
                 (clock w (ticks w + occurrences id (take i (incidents w))))
          else it).
Proof.
  intros Hi. unfold exec, updateIncident, setIncidents.
  destruct (Array_map_updateIncident_run id patch (incidents w) w) as (l' & Hrun & _ & Hlook).
  rewrite Hrun. cbn. by apply Hlook.
Qed.

Lemma updateIncident_length id patch w :
  length (incidents (exec (updateIncident id patch) w)) = length (incidents w).
Proof.
  unfold exec, updateIncident, setIncidents.
  destruct (Array_map_updateIncident_run id patch (incidents w) w) as (l' & Hrun & Hlen & _).
  rewrite Hrun. by cbn.
Qed.

Lemma merge_only_patch_changes it patch now :
  only_patch_changes patch it (merge_incident it patch now).
Proof.
  destruct patch as [a b c d e f g h i j k]. unfold only_patch_changes, patched. cbn.
  destruct a, b, c, d, e, f, g, h, i, j; cbn; repeat split.
Qed.

Lemma deleteIncident_incidents id w :
  incidents (exec (deleteIncident id) w) =
  List.filter (λ i, negb (String.eqb (Incident.id i) id)) (incidents w).
Proof. reflexivity. Qed.

Lemma filter_negb_length {A} (f : A → bool) (l : list A) :
  length (List.filter (λ x, negb (f x)) l) + length (List.filter f l) = length l.
Proof.
  induction l as [|x l IH]; [done|]. cbn. destruct (f x); cbn; lia.
Qed.

Lemma filter_all_true {A} (f : A → bool) (l : list A) :
  (∀ x, x ∈ l → f x = true) → List.filter f l = l.
Proof.
  induction l as [|x l IH]; intros H; [done|]. cbn.
  rewrite (H x) by apply list_elem_of_here. f_equal. apply IH.
  intros y Hy. apply H. by apply list_elem_of_further.
Qed.

(** C1 (as stated, refuted): the record that [createIncident] prepends does
    not always have status [Abierta]: created from data whose status is
    [Cerrada], it is [Cerrada]. *)
Lemma C1_counterexample :
  ¬ ∃ n, incidents (exec (createIncident (sample_data Cerrada)) sample_world)
           = n :: incidents sample_world
         ∧ Incident.status n = Abierta.
Proof.
  intros (n & Hn & Hs). vm_compute in Hn. inversion Hn; subst n. discriminate Hs.
Qed.

(** C1 (amended): [createIncident] returns nothing; the record it creates is
    prepended to the Incident collection, whose previous records follow in
    their order. Its status is the one supplied in [data], its [createdAt]
    and [updatedAt] are both the current time, its id is the one [uid("inc")]
    generates, and its other fields are those of [data]. *)
Theorem C1_createIncident :
  ∀ (w : World) (data : IncidentData.t),
    let now := clock w (ticks w) in
    let id := "inc_" +:+ slice 2 9 (entropy w (draws w)) in
    eval (createIncident data) w = tt ∧
    ∃ n, incidents (exec (createIncident data) w) = n :: incidents w ∧
         n = new_incident id now data ∧
         Incident.status n = IncidentData.status data ∧
         Incident.createdAt n = now ∧
         Incident.updatedAt n = now ∧
         Incident.createdAt n = Incident.updatedAt n ∧
         Incident.id n = id.
Proof.
  intros w data now id. split; [done|].
  exists (new_incident id now data). repeat split.
Qed.

(** C10: [createIncident] does not set the status. The created record has the
    status supplied in [data], so data with a status other than [Abierta]
    gives a record with that status; [Abierta] comes from the caller in the
    Portal tab, which overwrites the status of the payload. *)
Theorem C10_status_from_data :
  (∀ (w : World) (data : IncidentData.t),
     Incident.status <$> head (incidents (exec (createIncident data) w))
       = Some (IncidentData.status data)) ∧
  (∀ (w : World) (payload : IncidentData.t),
     Incident.status <$> head (incidents (exec (Portal_onSubmit payload) w))
       = Some Abierta) ∧
  Incident.status <$> head (incidents (exec (createIncident (sample_data Resuelta)) sample_world))
    = Some Resuelta.
Proof. repeat split. Qed.

(** C4: [updateIncident] with an id that is in the collection. A record with
    that id gets the current time as [updatedAt] (the reading of the clock
    taken for it: the first one of the call when no earlier record has the
    same id); each of its other fields keeps its value unless the patch
    carries that field, in which case it takes the patch's value. A record
    with another id is unchanged, and the collection keeps its length. *)
Theorem C4_updateIncident_frame :
  ∀ (w : World) (id : string) (patch : IncidentPatch.t) (i : nat) (it : Incident.t),
    incidents w !! i = Some it →
    let w' := exec (updateIncident id patch) w in
    length (incidents w') = length (incidents w) ∧
    (Incident.id it = id →
       ∃ it', incidents w' !! i = Some it' ∧
              Incident.updatedAt it' =
                clock w (ticks w + occurrences id (take i (incidents w))) ∧
              (occurrences id (take i (incidents w)) = 0 →
                 Incident.updatedAt it' = clock w (ticks w)) ∧
              only_patch_changes patch it it') ∧
    (Incident.id it ≠ id → incidents w' !! i = Some it).
Proof.
  intros w id patch i it Hi w'. subst w'.
  split; [apply updateIncident_length|].
  rewrite (updateIncident_lookup _ _ _ _ _ Hi). split.
  - intros Hid. apply String.eqb_eq in Hid. rewrite Hid. eexists. split; [done|].
    split; [done|]. split.
    + intros ->. cbn. by rewrite Nat.add_0_r.
    + apply merge_only_patch_changes.
  - intros Hid. apply String.eqb_neq in Hid. by rewrite Hid.
Qed.

Lemma C4_witness :
  let patch := IncidentPatch.mk None None None None None None (Some Resuelta)
                                None None None None in
  let w' := exec (updateIncident "inc_b" patch) sample_world2 in
  (∃ it', incidents w' !! 1 = Some it' ∧
          Incident.updatedAt it' = "2024-05-01T10:00:00.000Z" ∧
          Incident.status it' = Resuelta ∧
          Incident.title it' = "No puedo entrar" ∧
          Incident.createdAt it' = "2024-04-30T08:00:00.000Z") ∧
  incidents w' !! 0 = Some (sample_incident "inc_a") ∧
  length (incidents w') = 2.
Proof.
  intros patch w'.
  destruct (C4_updateIncident_frame sample_world2 "inc_b" patch
              1 (sample_incident "inc_b") eq_refl) as (Hlen & Hsame & _).
  destruct (C4_updateIncident_frame sample_world2 "inc_b" patch
              0 (sample_incident "inc_a") eq_refl) as (_ & _ & Hother).
  split; [|split].
  - destruct (Hsame eq_refl) as (it' & Hit & _ & Hnow & Hframe).
    destruct Hframe as (_ & Htitle & _ & _ & _ & _ & Hstatus & _ & _ & Hcreated).
    exists it'. split; [exact Hit|]. split; [exact (Hnow eq_refl)|].
    split; [exact Hstatus|]. split; [exact Htitle|exact Hcreated].
  - apply Hother. vm_compute. discriminate.
  - exact Hlen.
Defined.

(** C5 (as stated, refuted): a patch may carry [id] and [createdAt]
    ([Partial<Incident>] has both), and [updateIncident] then overwrites them
    on the matching record. *)
Lemma C5_counterexample :
  let patch := IncidentPatch.mk (Some "inc_z") None None None None None None None None
                                (Some "1999-01-01T00:00:00.000Z") None in
  let w' := exec (updateIncident "inc_a" patch) sample_world2 in
  map Incident.id (incidents sample_world2) = ["inc_a"; "inc_b"] ∧
  map Incident.id (incidents w') = ["inc_z"; "inc_b"] ∧
  map Incident.id (incidents w') ≠ map Incident.id (incidents sample_world2) ∧
  map Incident.createdAt (incidents w') ≠ map Incident.createdAt (incidents sample_world2).
Proof. vm_compute. repeat split; discriminate. Qed.

Lemma updateIncident_map_field {A} (f : Incident.t → A) id patch w :
  (∀ it now, f (merge_incident it patch now) = f it) →
  map f (incidents (exec (updateIncident id patch) w)) = map f (incidents w).
Proof.
  intros Hf. apply list_eq. intros i. rewrite !list_lookup_fmap.
  destruct (incidents w !! i) as [it|] eqn:Hi.
  - rewrite (updateIncident_lookup _ _ _ _ _ Hi). cbn.
    destruct (String.eqb (Incident.id it) id); by rewrite ?Hf.
  - apply lookup_ge_None in Hi. rewrite <- (updateIncident_length id patch w) in Hi.
    apply lookup_ge_None in Hi. by rewrite Hi.
Qed.

(** C5 (amended): [updateIncident] leaves the id of every record unchanged
    when the patch carries no [id], and the [createdAt] of every record
    unchanged when the patch carries no [createdAt]; a record whose id is not
    the given one keeps both whatever the patch. The patches built by the
    callers in the repository (status change, edit form) carry neither. *)
Theorem C5_id_createdAt_kept :
  ∀ (w : World) (id : string) (patch : IncidentPatch.t),
    let w' := exec (updateIncident id patch) w in
    (IncidentPatch.id patch = None →
       map Incident.id (incidents w') = map Incident.id (incidents w)) ∧
    (IncidentPatch.createdAt patch = None →
       map Incident.createdAt (incidents w') = map Incident.createdAt (incidents w)) ∧
    (∀ i it, incidents w !! i = Some it → Incident.id it ≠ id →
       incidents w' !! i = Some it) ∧
    (∀ status,
       let w1 := exec (onStatusChange id status) w in
       map Incident.id (incidents w1) = map Incident.id (incidents w) ∧
       map Incident.createdAt (incidents w1) = map Incident.createdAt (incidents w)) ∧
    (∀ title description status,
       let w2 := exec (EditIncidentForm_save id title description status) w in
       map Incident.id (incidents w2) = map Incident.id (incidents w) ∧
       map Incident.createdAt (incidents w2) = map Incident.createdAt (incidents w)).
Proof.
  intros w id patch w'. subst w'. repeat split.
  - intros Hp. apply updateIncident_map_field. intros it now. cbn. by rewrite Hp.
  - intros Hp. apply updateIncident_map_field. intros it now. cbn. by rewrite Hp.
  - intros i it Hi Hne. rewrite (updateIncident_lookup _ _ _ _ _ Hi).
    apply String.eqb_neq in Hne. by rewrite Hne.
  - by apply updateIncident_map_field.
  - by apply updateIncident_map_field.
  - by apply updateIncident_map_field.
  - by apply updateIncident_map_field.
Qed.

Lemma C5_witness :
  let patch := IncidentPatch.mk None (Some "Otro título") None None None None
                                (Some Cerrada) None None None None in
  let w' := exec (updateIncident "inc_a" patch) sample_world2 in
  map Incident.id (incidents w') = map Incident.id (incidents sample_world2) ∧
  map Incident.createdAt (incidents w') = map Incident.createdAt (incidents sample_world2) ∧
  incidents w' !! 1 = Some (sample_incident "inc_b").
Proof.
  intros patch w'.
  destruct (C5_id_createdAt_kept sample_world2 "inc_a" patch) as (Hid & Hcr & Hoth & _).
  split; [apply Hid; reflexivity|].
  split; [apply Hcr; reflexivity|].
  apply Hoth; [reflexivity|]. vm_compute. discriminate.
Defined.

Lemma updateIncident_unknown id patch w :
  occurrences id (incidents w) = 0 →
  incidents (exec (updateIncident id patch) w) = incidents w.
Proof.
  intros H0. apply list_eq. intros i.
  destruct (incidents w !! i) as [it|] eqn:Hi.
  - rewrite (updateIncident_lookup _ _ _ _ _ Hi).
    destruct (String.eqb (Incident.id it) id) eqn:Hit; [|done].
    exfalso. unfold occurrences in H0. apply length_zero_iff_nil in H0.
    assert (Hin : In it (List.filter (λ it, String.eqb (Incident.id it) id) (incidents w))).
    { apply filter_In. split; [|done]. apply list_elem_of_In.
      by apply list_elem_of_lookup_2 with i. }
    rewrite H0 in Hin. destruct Hin.
  - apply lookup_ge_None in Hi. rewrite <- (updateIncident_length id patch w) in Hi.
    by apply lookup_ge_None in Hi.
Qed.

Lemma deleteIncident_unknown id w :
  occurrences id (incidents w) = 0 →
  incidents (exec (deleteIncident id) w) = incidents w.
Proof.
  intros H0. rewrite deleteIncident_incidents.
  pose proof (filter_negb_length (λ i, String.eqb (Incident.id i) id) (incidents w)) as Hl.
  unfold occurrences in H0. rewrite H0, Nat.add_0_r in Hl.
  apply filter_all_true. intros x Hx.
  destruct (String.eqb (Incident.id x) id) eqn:E; [|done].
  exfalso. apply length_zero_iff_nil in H0.
  assert (Hin : In x (List.filter (λ i, String.eqb (Incident.id i) id) (incidents w))).
  { apply filter_In. split; [by apply list_elem_of_In|done]. }
  rewrite H0 in Hin. destruct Hin.
Qed.

Lemma deleteIncident_gone id w :
  occurrences id (incidents (exec (deleteIncident id) w)) = 0.
Proof.
  rewrite deleteIncident_incidents. unfold occurrences.
  induction (incidents w) as [|x l IH]; [done|]. cbn.
  destruct (String.eqb (Incident.id x) id) eqn:E; cbn; [done|]. by rewrite E.
Qed.

(** C6: with an id that no record of the collection has, [updateIncident]
    (any patch) and [deleteIncident] leave the collection as it is, same
    records in the same order. With an id that exactly one record has,
    [deleteIncident] makes the collection one shorter, no record with that id
    remains, the other records stay in their order, and deleting the same id
    again changes nothing. *)
Theorem C6_unknown_id_and_delete :
  ∀ (w : World) (id : string),
    (occurrences id (incidents w) = 0 →
       (∀ patch, incidents (exec (updateIncident id patch) w) = incidents w) ∧
       incidents (exec (deleteIncident id) w) = incidents w) ∧
    (occurrences id (incidents w) = 1 →
       let w' := exec (deleteIncident id) w in
       S (length (incidents w')) = length (incidents w) ∧
       (∀ it, it ∈ incidents w' → Incident.id it ≠ id) ∧
       (∀ it, it ∈ incidents w → Incident.id it ≠ id → it ∈ incidents w') ∧
       incidents (exec (deleteIncident id) w') = incidents w' ∧
       length (incidents (exec (deleteIncident id) w')) = length (incidents w')).
Proof.
  intros w id. split.
  - intros H0. split; [intros patch; by apply updateIncident_unknown|].
    by apply deleteIncident_unknown.
  - intros H1 w'. subst w'.
    assert (Hagain : incidents (exec (deleteIncident id) (exec (deleteIncident id) w))
                     = incidents (exec (deleteIncident id) w)).
    { apply deleteIncident_unknown, deleteIncident_gone. }
    repeat split.
    + pose proof (filter_negb_length (λ i, String.eqb (Incident.id i) id) (incidents w)) as Hl.
      unfold occurrences in H1. rewrite H1 in Hl. rewrite deleteIncident_incidents. lia.
    + intros it Hit. rewrite deleteIncident_incidents in Hit.
      apply list_elem_of_In, filter_In in Hit. destruct Hit as [_ Hit].
      apply negb_true_iff, String.eqb_neq in Hit. done.
    + intros it Hit Hne. rewrite deleteIncident_incidents.
      apply list_elem_of_In, filter_In. split; [by apply list_elem_of_In|].
      by apply negb_true_iff, String.eqb_neq.
    + exact Hagain.
    + by rewrite Hagain.
Qed.

Lemma C6_witness :
  (incidents (exec (deleteIncident "inc_zzz") sample_world2) = incidents sample_world2) ∧
  (S (length (incidents (exec (deleteIncident "inc_a") sample_world2))) = 2).
Proof.
  split.
  - destruct (C6_unknown_id_and_delete sample_world2 "inc_zzz") as [H0 _].
    apply H0. reflexivity.
  - destruct (C6_unknown_id_and_delete sample_world2 "inc_a") as [_ H1].
    apply H1. reflexivity.
Defined.

(** C9 (as stated, refuted): the block that [upsertBlock({})] creates is
    titled ["Nuevo bloque"], not ["Untitled block"]. *)
Lemma C9_counterexample :
  ¬ ∃ b, contentBlocks (exec (upsertBlock (Some ContentBlockPatch.empty)) sample_world)
           = b :: contentBlocks sample_world
         ∧ ContentBlock.title b = "Untitled block".
Proof.
  intros (b & Hb & Ht). vm_compute in Hb. inversion Hb; subst b. discriminate Ht.
Qed.

(** C9 (amended): [upsertBlock] called with no block, or with a block that has
    no id, no title and no body (absent or empty), prepends to the
    ContentBlock collection a block with the default title ["Nuevo bloque"],
    the placeholder Markdown body ["Escribe contenido en **Markdown**."], the
    current time as [updatedAt] and the id [uid("blk")] generates. *)
Theorem C9_upsertBlock_defaults :
  ∀ (w : World) (block : option ContentBlockPatch.t),
    truthy_opt (opt_id block) = false →
    truthy_opt (opt_title block) = false →
    truthy_opt (opt_body block) = false →
    contentBlocks (exec (upsertBlock block) w) =
      {| ContentBlock.id := "blk_" +:+ slice 2 9 (entropy w (draws w));
         ContentBlock.title := "Nuevo bloque";
         ContentBlock.body := "Escribe contenido en **Markdown**.";
         ContentBlock.updatedAt := clock w (ticks w) |} :: contentBlocks w.
Proof.
  intros w block Hid Ht Hb. unfold upsertBlock. rewrite Hid. cbn.
  unfold exec, bind, uid, bind, Math_random_toString36, ret, Date_now_toISOString,
    setContentBlocks. cbn.
  assert (Hd : ∀ o d, truthy_opt o = false → or_default o d = d).
  { intros [s|] d; cbn; [|done]. by intros ->. }
  by rewrite !Hd.
Qed.

Lemma C9_witness :
  contentBlocks (exec onCreate sample_world) =
    [ {| ContentBlock.id := "blk_4fzyo82";
         ContentBlock.title := "Nuevo bloque";
         ContentBlock.body := "Escribe contenido en **Markdown**.";
         ContentBlock.updatedAt := "2024-05-01T10:00:00.000Z" |} ].
Proof.
  exact (C9_upsertBlock_defaults sample_world (Some ContentBlockPatch.empty)
           eq_refl eq_refl eq_refl).
Defined.

(* ===================================================================== *)
(** * QueryEngine: the text filter *)
(* ===================================================================== *)

Lemma append_nil_l (s : string) : "" +:+ s = s.
Proof. reflexivity. Qed.

Lemma append_cons c (a b : string) : String c a +:+ b = String c (a +:+ b).
Proof. reflexivity. Qed.















(* ===================================================================== *)
(** * QueryEngine: the sort *)
(* ===================================================================== *)

Lemma sort_insert_perm {A} (cmp : A → A → option Z) x l :
  Permutation (sort_insert cmp x l) (x :: l).
Proof.
  induction l as [|y l IH]; cbn; [done|].
  destruct (SortCompare cmp x y <=? 0)%Z; [done|].
  rewrite IH. apply perm_swap.
Qed.

Lemma Array_sort_perm {A} (cmp : A → A → option Z) l :
  Permutation (Array_sort cmp l) l.
Proof.
  induction l as [|x l IH]; cbn; [done|].
  unfold Array_sort in IH. rewrite sort_insert_perm. by constructor.
Qed.

Lemma Array_sort_elem_of {A} (cmp : A → A → option Z) l x :
  x ∈ Array_sort cmp l ↔ x ∈ l.
Proof. by rewrite (Array_sort_perm cmp l). Qed.

Section SortByKey.
Context {A : Type} (cmp : A → A → option Z) (key : A → Z).


Lemma compares_keys_tail x l : compares_keys cmp key (x :: l) → compares_keys cmp key l.
Proof. intros H a b Ha Hb. apply H; by apply list_elem_of_further. Qed.

Lemma sort_insert_sorted x l :
  compares_keys cmp key (x :: l) →
  StronglySorted (key_ge key) l → StronglySorted (key_ge key) (sort_insert cmp x l).
Proof.
  intros Hc Hs. induction Hs as [|y l Hs IH Hy]; cbn.
  - repeat constructor.
  - assert (Hxy : SortCompare cmp x y = (key y - key x)%Z).
    { apply Hc; [apply list_elem_of_here|]. apply list_elem_of_further, list_elem_of_here. }
    rewrite Hxy. destruct (Z.leb_spec (key y - key x) 0) as [Hle|Hgt].
    + constructor; [by constructor|]. constructor; [unfold key_ge; lia|].
      eapply Forall_impl; [exact Hy|]. unfold key_ge. intros z Hz. cbn in Hz. lia.
    + constructor.
      * apply IH. intros a b Ha Hb. apply Hc.
        -- apply elem_of_cons in Ha as [->|Ha]; [apply list_elem_of_here|].
           by do 2 apply list_elem_of_further.
        -- apply elem_of_cons in Hb as [->|Hb]; [apply list_elem_of_here|].
           by do 2 apply list_elem_of_further.
      * rewrite (sort_insert_perm cmp x l). constructor; [unfold key_ge; lia|done].
Qed.

Lemma Array_sort_sorted l :
  compares_keys cmp key l → StronglySorted (key_ge key) (Array_sort cmp l).
Proof.
  induction l as [|x l IH]; intros Hc; cbn; [constructor|].
  apply sort_insert_sorted.
  - intros a b Ha Hb. apply Hc.
    + apply elem_of_cons in Ha as [->|Ha]; [apply list_elem_of_here|].
      apply list_elem_of_further. by apply (Array_sort_elem_of cmp l).
    + apply elem_of_cons in Hb as [->|Hb]; [apply list_elem_of_here|].
      apply list_elem_of_further. by apply (Array_sort_elem_of cmp l).
  - apply IH. by apply compares_keys_tail with x.
Qed.

(** Stability: the elements with a given key keep their relative order. *)
Lemma sort_insert_stable k x l :
  compares_keys cmp key (x :: l) →
  List.filter (λ a, key a =? k)%Z (sort_insert cmp x l)
  = List.filter (λ a, key a =? k)%Z (x :: l).
Proof.
  induction l as [|y l IH]; intros Hc; [done|]. cbn [sort_insert].
  assert (Hxy : SortCompare cmp x y = (key y - key x)%Z).
  { apply Hc; [apply list_elem_of_here|]. apply list_elem_of_further, list_elem_of_here. }
  rewrite Hxy. destruct (Z.leb_spec (key y - key x) 0) as [Hle|Hgt]; [done|].
  cbn [List.filter] in *. rewrite IH.
  - destruct (Z.eqb_spec (key y) k), (Z.eqb_spec (key x) k); try done. lia.
  - intros a b Ha Hb. apply Hc.
    + apply elem_of_cons in Ha as [->|Ha]; [apply list_elem_of_here|].
      by do 2 apply list_elem_of_further.
    + apply elem_of_cons in Hb as [->|Hb]; [apply list_elem_of_here|].
      by do 2 apply list_elem_of_further.
Qed.

Lemma Array_sort_stable k l :
  compares_keys cmp key l →
  List.filter (λ a, key a =? k)%Z (Array_sort cmp l) = List.filter (λ a, key a =? k)%Z l.
Proof.
  induction l as [|x l IH]; intros Hc; [done|]. cbn [Array_sort foldr].
  rewrite sort_insert_stable.
  - cbn [List.filter]. unfold Array_sort in IH. rewrite IH; [done|].
    by apply compares_keys_tail with x.
  - intros a b Ha Hb. apply Hc.
    + apply elem_of_cons in Ha as [->|Ha]; [apply list_elem_of_here|].
      apply list_elem_of_further. by apply (Array_sort_elem_of cmp l).
    + apply elem_of_cons in Hb as [->|Hb]; [apply list_elem_of_here|].
      apply list_elem_of_further. by apply (Array_sort_elem_of cmp l).
Qed.
(** Two lists that are non-increasing in the key and agree on the order of
the elements of every key are the same list: a stable sort has one result,
whatever the algorithm. *)
Lemma sorted_stable_unique l1 l2 :
  StronglySorted (key_ge key) l1 → StronglySorted (key_ge key) l2 →
  (∀ k, List.filter (λ a, key a =? k)%Z l1 = List.filter (λ a, key a =? k)%Z l2) →
  l1 = l2.
Proof.
  intros Hs1. revert l2. induction Hs1 as [|x l1 Hs1 IH Hx]; intros l2 Hs2 Heq.
  - destruct l2 as [|y l2]; [done|]. specialize (Heq (key y)). cbn in Heq.
    by rewrite Z.eqb_refl in Heq.
  - destruct Hs2 as [|y l2 Hs2 Hy].
    { specialize (Heq (key x)). cbn in Heq. by rewrite Z.eqb_refl in Heq. }
    assert (Hk : key x = key y).
    { destruct (Z.eq_dec (key x) (key y)) as [|Hne]; [done|]. exfalso.
      assert (Hxin : In x l2).
      { pose proof (Heq (key x)) as E. cbn in E. rewrite Z.eqb_refl in E.
        destruct (Z.eqb_spec (key y) (key x)) as [?|_]; [congruence|].
        assert (Hin : In x (List.filter (λ a, key a =? key x)%Z l2))
          by (rewrite <- E; apply in_eq).
        by apply filter_In in Hin as [Hin _]. }
      assert (Hyin : In y l1).
      { pose proof (Heq (key y)) as E. cbn in E. rewrite Z.eqb_refl in E.
        destruct (Z.eqb_spec (key x) (key y)) as [?|_]; [congruence|].
        assert (Hin : In y (List.filter (λ a, key a =? key y)%Z l1))
          by (rewrite E; apply in_eq).
        by apply filter_In in Hin as [Hin _]. }
      apply list_elem_of_In in Hxin, Hyin.
      eapply Forall_forall in Hx; [|exact Hyin].
      eapply Forall_forall in Hy; [|exact Hxin].
      unfold key_ge in Hx, Hy. lia. }
    assert (Hhead : x = y ∧ ∀ k, List.filter (λ a, key a =? k)%Z l1
                                 = List.filter (λ a, key a =? k)%Z l2).
    { split.
      - specialize (Heq (key x)). cbn in Heq. rewrite Hk, Z.eqb_refl in Heq.
        by inversion Heq.
      - intros k. specialize (Heq k). cbn in Heq. rewrite Hk in Heq.
        destruct (key y =? k)%Z; [by inversion Heq|done]. }
    destruct Hhead as [-> Htail]. f_equal. by apply IH.
Qed.

Lemma Array_sort_unique l l' :
  compares_keys cmp key l → StronglySorted (key_ge key) l' →
  (∀ k, List.filter (λ a, key a =? k)%Z l' = List.filter (λ a, key a =? k)%Z l) →
  l' = Array_sort cmp l.
Proof.
  intros Hc Hs Heq. apply sorted_stable_unique; [done|by apply Array_sort_sorted|].
  intros k. rewrite Heq. symmetry. by apply Array_sort_stable.
Qed.
End SortByKey.






Lemma StronglySorted_lookup {A} (R : A → A → Prop) l m n a b :
  StronglySorted R l → m < n → l !! m = Some a → l !! n = Some b → R a b.
Proof.
  intros Hs. revert m n. induction Hs as [|x l Hs IH Hx]; intros m n Hmn Ha Hb; [done|].
  destruct n as [|n]; [lia|]. destruct m as [|m].
  - inversion Ha; subst x. eapply Forall_forall in Hx; [exact Hx|].
    by apply list_elem_of_lookup_2 with n.
  - apply (IH m n); [lia|done..].
Qed.

Lemma filter_sublist {A} (f : A → bool) l : sublist (List.filter f l) l.
Proof.
  induction l as [|x l IH]; cbn; [constructor|].
  destruct (f x); by constructor.
Qed.

Lemma apply_filters_sublist incidents query sf pf :
  sublist (apply_filters incidents query sf pf) incidents.
Proof.
  unfold apply_filters.
  assert (H1 : sublist (if truthy (trim query)
                        then List.filter (matches (toLowerCase query)) incidents
                        else incidents) incidents).
  { destruct (truthy _); [apply filter_sublist|done]. }
  set (l1 := if truthy _ then _ else _) in *.
  assert (H2 : sublist (match sf with
                        | Todos => l1
                        | SoloEstado s => List.filter (λ i, Status_eqb (Incident.status i) s) l1
                        end) incidents).
  { destruct sf; [done|]. etrans; [apply filter_sublist|done]. }
  set (l2 := match sf with Todos => _ | _ => _ end) in *.
  cbn zeta. destruct (negb _); [|done]. etrans; [apply filter_sublist|done].
Qed.

Lemma indexOf_spec l p :
  (p ∈ l → (0 ≤ indexOf l p)%Z ∧ l !! Z.to_nat (indexOf l p) = Some p) ∧
  (p ∉ l → indexOf l p = (-1)%Z).
Proof.
  unfold indexOf. destruct (list_find (λ x, x = p) l) as [[i x]|] eqn:E.
  - apply list_find_Some in E as (Hi & -> & _). split.
    + intros _. split; [lia|]. by rewrite Nat2Z.id.
    + intros Hn. exfalso. apply Hn. by apply list_elem_of_lookup_2 with i.
  - split; [|done]. intros Hin. exfalso.
    apply list_find_None in E. eapply Forall_forall in E; [|exact Hin]. by apply E.
Qed.

Lemma compares_keys_fecha Dv l :
  (∀ i, i ∈ l → is_Some (created Dv i)) →
  compares_keys (cmp_fecha Dv) (created_key Dv) l.
Proof.
  intros Hv a b Ha Hb. unfold SortCompare, cmp_fecha, created_key.
  destruct (Hv a Ha) as [ta Hta], (Hv b Hb) as [tb Htb].
  unfold created in *. by rewrite Hta, Htb.
Qed.

Lemma compares_keys_prioridad priorities l :
  compares_keys (cmp_prioridad priorities) (rank_key priorities) l.
Proof. by intros a b _ _. Qed.

(** C2: the sort step of [filtered]. [kept] is what the filter steps leave,
    a subsequence of the collection, and the view is a rearrangement of it.
    By date, when every [createdAt] is a valid date: an incident of the view
    is never older than one that follows it, and the incidents created at
    the same time are in the order they have in [kept]. By priority: the rank
    of an incident's label in the vocabulary is never lower than that of one
    that follows it; a label that is not in the vocabulary has rank [-1], a
    label that is has a rank of [0] or more, so that every incident with a
    recognised label stands before every incident without one; and the
    incidents of the same rank are in the order they have in [kept]. In the
    scenario, by date gives [C, B, A] and by priority gives [C, A, B]. *)
Theorem C2_sort_stage :
  ∀ (Date_valueOf : string → option Z) (incidents : list Incident.t) (query : string)
    (statusFilter : StatusFilter) (priorityFilter : string) (priorities : list string),
    let kept := apply_filters incidents query statusFilter priorityFilter in
    let by_date :=
      filtered Date_valueOf incidents query statusFilter priorityFilter fecha priorities in
    let by_priority :=
      filtered Date_valueOf incidents query statusFilter priorityFilter prioridad priorities in
    sublist kept incidents ∧
    ((∀ i, i ∈ incidents → is_Some (created Date_valueOf i)) →
       Permutation by_date kept ∧
       (∀ m n a b, m < n → by_date !! m = Some a → by_date !! n = Some b →
          ∃ ta tb, created Date_valueOf a = Some ta ∧ created Date_valueOf b = Some tb ∧
                   (tb ≤ ta)%Z) ∧
       (∀ t, created_at Date_valueOf t by_date = created_at Date_valueOf t kept)) ∧
    (Permutation by_priority kept ∧
     (∀ m n a b, m < n → by_priority !! m = Some a → by_priority !! n = Some b →
        (rank_key priorities b ≤ rank_key priorities a)%Z) ∧
     (∀ p, p ∉ priorities → rank priorities p = (-1)%Z) ∧
     (∀ p, p ∈ priorities → (0 ≤ rank priorities p)%Z) ∧
     (∀ m n a b, by_priority !! m = Some a → by_priority !! n = Some b →
        Incident.priority a ∈ priorities → Incident.priority b ∉ priorities → m < n) ∧
     (∀ r, ranked priorities r by_priority = ranked priorities r kept)) ∧
    (filtered Date_parse_ISO [inc_A; inc_B; inc_C] "" Todos "Todas" fecha
              ["Baja"; "Media"; "Alta"; "Crítica"] = [inc_C; inc_B; inc_A] ∧
     filtered Date_parse_ISO [inc_A; inc_B; inc_C] "" Todos "Todas" prioridad
              ["Baja"; "Media"; "Alta"; "Crítica"] = [inc_C; inc_A; inc_B]).
Proof.
  intros Dv incidents query sf pf priorities kept by_date by_priority.
  split; [apply apply_filters_sublist|]. split; [|split].
  - intros Hvalid.
    assert (Hkept : ∀ i, i ∈ kept → is_Some (created Dv i)).
    { intros i Hi. apply Hvalid. eapply elem_of_sublist; [exact Hi|].
      apply apply_filters_sublist. }
    pose proof (compares_keys_fecha Dv kept Hkept) as Hc.
    split; [apply Array_sort_perm|]. split.
    + intros m n a b Hmn Ha Hb.
      pose proof (StronglySorted_lookup _ _ _ _ _ _
                    (Array_sort_sorted _ _ kept Hc) Hmn Ha Hb) as Hab.
      assert (Hia : a ∈ kept).
      { apply (Array_sort_elem_of (cmp_fecha Dv)). by apply list_elem_of_lookup_2 with m. }
      assert (Hib : b ∈ kept).
      { apply (Array_sort_elem_of (cmp_fecha Dv)). by apply list_elem_of_lookup_2 with n. }
      destruct (Hkept a Hia) as [ta Hta], (Hkept b Hib) as [tb Htb].
      exists ta, tb. repeat split; [done..|].
      unfold key_ge, created_key in Hab. by rewrite Hta, Htb in Hab.
    + intros t. by apply Array_sort_stable.
  - pose proof (compares_keys_prioridad priorities kept) as Hc.
    assert (Hsorted : ∀ m n a b, m < n → by_priority !! m = Some a →
              by_priority !! n = Some b →
              (rank_key priorities b ≤ rank_key priorities a)%Z).
    { intros m n a b Hmn Ha Hb.
      exact (StronglySorted_lookup _ _ _ _ _ _
               (Array_sort_sorted _ _ kept Hc) Hmn Ha Hb). }
    split; [apply Array_sort_perm|]. split; [exact Hsorted|].
    split; [intros p; apply indexOf_spec|].
    split; [intros p Hp; by apply indexOf_spec|]. split.
    + intros m n a b Ha Hb Hpa Hpb.
      apply (proj1 (indexOf_spec _ _)) in Hpa as [Hpa _].
      apply (proj2 (indexOf_spec _ _)) in Hpb.
      destruct (lt_eq_lt_dec m n) as [[Hlt|Heq]|Hgt]; [done| |].
      * subst n. rewrite Ha in Hb. inversion Hb; subst b. lia.
      * pose proof (Hsorted n m b a Hgt Hb Ha) as Hle.
        unfold rank_key, rank in Hle. lia.
    + intros r. by apply Array_sort_stable.
  - split; reflexivity.
Qed.

Lemma C2_witness :
  let l := [inc_A; inc_B; inc_C] in
  let view := filtered Date_parse_ISO l "" Todos "Todas" fecha ["Baja"; "Media"; "Alta"; "Crítica"] in
  Permutation view l ∧
  (∀ t, created_at Date_parse_ISO t view = created_at Date_parse_ISO t l).
Proof.
  intros l view.
  destruct (C2_sort_stage Date_parse_ISO l "" Todos "Todas"
              ["Baja"; "Media"; "Alta"; "Crítica"]) as (_ & Hdate & _).
  destruct Hdate as (Hperm & _ & Hstable).
  - intros i Hi. unfold l in Hi.
    repeat (apply elem_of_cons in Hi as [->|Hi]; [by eexists|]).
    by apply elem_of_nil in Hi.
  - split; [exact Hperm|exact Hstable].
Defined.

(* ===================================================================== *)
(** * JSON: what [JSON.stringify] writes, [JSON.parse] reads back *)
(* ===================================================================== *)

Lemma value_ind' (P : value → Prop) :
  P VNull → (∀ b, P (VBool b)) → (∀ n, P (VNum n)) → (∀ s, P (VStr s)) →
  (∀ vs, Forall P vs → P (VArr vs)) →
  (∀ ms, Forall (λ kv, P kv.2) ms → P (VObj ms)) →
  ∀ v, P v.
Proof.
  intros Hnull Hbool Hnum Hstr Harr Hobj.
  fix IH 1. intros [|b|n|s|vs|ms]; [done..| |].
  - apply Harr. induction vs as [|v vs IHvs]; constructor; [apply IH|exact IHvs].
  - apply Hobj. induction ms as [|[k v] ms IHms]; constructor; [apply IH|exact IHms].
Qed.

Lemma length_append (a b : string) :
  String.length (a +:+ b) = String.length a + String.length b.
Proof.
  induction a as [|c a IH]; [done|]. rewrite append_cons. cbn. by rewrite IH.
Qed.

Lemma append_assoc (a b c : string) : (a +:+ b) +:+ c = a +:+ b +:+ c.
Proof.
  induction a as [|x a IH]; [done|]. rewrite !append_cons. by rewrite IH.
Qed.

Lemma append_nil_r (a : string) : a +:+ "" = a.
Proof. induction a as [|x a IH]; [done|]. rewrite append_cons. by rewrite IH. Qed.

(** *** Numbers *)

Lemma string_of_uint_num_chars d : all_num_chars (NilEmpty.string_of_uint d) = true.
Proof. induction d; cbn; done. Qed.

Lemma string_of_Z_num_chars z : all_num_chars (string_of_Z z) = true.
Proof.
  unfold string_of_Z. destruct z as [|p|p]; cbn; [done| |].
  - unfold NilZero.string_of_uint. destruct (Pos.to_uint p) eqn:E;
      rewrite <- ?E; [done|apply string_of_uint_num_chars..].
  - unfold NilZero.string_of_uint. destruct (Pos.to_uint p) eqn:E;
      rewrite <- ?E; [done|apply string_of_uint_num_chars..].
Qed.

Lemma span_num_app tok rest :
  all_num_chars tok = true → ends_number rest = true →
  span_num (tok +:+ rest) = (tok, rest).
Proof.
  intros Htok Hrest. induction tok as [|c tok IH].
  - rewrite append_nil_l. destruct rest as [|c rest]; [done|]. cbn in *.
    by apply negb_true_iff in Hrest as ->.
  - rewrite append_cons. cbn in *. apply andb_true_iff in Htok as [-> Htok].
    by rewrite IH.
Qed.

Lemma int_of_string_of_Z z :
  NilZero.int_of_string (string_of_Z z) = Some (Z.to_int z).
Proof.
  unfold string_of_Z. apply NilZero.isi.
  - destruct z as [|p|p]; cbn; [done| |done].
    intros [= H]. by apply Unsigned.to_uint_nonnil in H.
  - destruct z as [|p|p]; cbn; [done..|].
    intros [= H]. by apply Unsigned.to_uint_nonnil in H.
Qed.

Lemma parse_number_stringify z rest :
  ends_number rest = true →
  parse_number (string_of_Z z +:+ rest) = Some (VNum z, rest).
Proof.
  intros Hrest. unfold parse_number.
  rewrite span_num_app by (apply string_of_Z_num_chars || done).
  rewrite int_of_string_of_Z. cbn. rewrite DecimalZ.of_to.
  by rewrite String.eqb_refl.
Qed.

Lemma string_of_Z_head z :
  ∃ c s, string_of_Z z = String c s ∧ is_num_char c = true.
Proof.
  pose proof (string_of_Z_num_chars z) as H.
  pose proof (int_of_string_of_Z z) as Hp.
  destruct (string_of_Z z) as [|c s]; [done|].
  exists c, s. split; [done|]. cbn in H. by apply andb_true_iff in H as [-> _].
Qed.

Lemma num_char_dispatch c :
  is_num_char c = true →
  is_ws c = false ∧ Ascii.eqb c "n" = false ∧ Ascii.eqb c "t" = false ∧
  Ascii.eqb c "f" = false ∧ Ascii.eqb c dquote = false ∧
  Ascii.eqb c "[" = false ∧ Ascii.eqb c "{" = false.
Proof.
  destruct c as [[] [] [] [] [] [] [] []]; vm_compute; intros H;
    first [discriminate H | repeat split].
Qed.

(** *** Strings *)

Lemma parse_chars_escape_char c tl :
  parse_chars (escape_char c +:+ tl) =
  '(str, rest) ← parse_chars tl; Some (String c str, rest).
Proof. destruct c as [[] [] [] [] [] [] [] []]; reflexivity. Qed.

Lemma parse_chars_escape s rest :
  parse_chars (escape s +:+ String dquote rest) = Some (s, rest).
Proof.
  induction s as [|c s IH]; [done|].
  cbn [escape]. rewrite append_assoc, parse_chars_escape_char, IH. done.
Qed.

Lemma parse_chars_quote s rest :
  ∃ tl, quote s +:+ rest = String dquote tl ∧ parse_chars tl = Some (s, rest).
Proof.
  exists (escape s +:+ String dquote rest). split.
  - unfold quote. rewrite append_cons, append_assoc. done.
  - apply parse_chars_escape.
Qed.

(** *** Values *)

Lemma starts_value_dispatch c :
  starts_value c = true →
  is_ws c = false ∧ Ascii.eqb c "]" = false ∧ Ascii.eqb c "}" = false.
Proof.
  destruct c as [[] [] [] [] [] [] [] []]; vm_compute; intros H;
    first [discriminate H | repeat split].
Qed.

Lemma JSON_stringify_head v :
  ∃ c s, JSON_stringify v = String c s ∧ starts_value c = true.
Proof.
  destruct v as [|[]|n|s|[|v vs]|[|[k v] ms]]; try (by eexists _, _).
  destruct (string_of_Z_head n) as (c & s & Hs & Hc).
  exists c, s. split; [done|]. unfold starts_value. by rewrite Hc.
Qed.

Lemma stringify_elems_head f vs rest :
  ∃ c s, stringify_elems f vs +:+ rest = String c s ∧ is_num_char c = false.
Proof. destruct vs; by eexists _, _. Qed.

Lemma stringify_members_head f ms rest :
  ∃ c s, stringify_members f ms +:+ rest = String c s ∧ is_num_char c = false.
Proof. destruct ms as [|[k v] ms]; by eexists _, _. Qed.

Lemma ends_number_elems f vs rest : ends_number (stringify_elems f vs +:+ rest) = true.
Proof.
  destruct (stringify_elems_head f vs rest) as (c & s & -> & Hc). cbn. by rewrite Hc.
Qed.

Lemma ends_number_members f ms rest :
  ends_number (stringify_members f ms +:+ rest) = true.
Proof.
  destruct (stringify_members_head f ms rest) as (c & s & -> & Hc). cbn. by rewrite Hc.
Qed.

Lemma skip_ws_value v rest :
  ∃ c s, JSON_stringify v +:+ rest = String c s ∧ skip_ws (String c s) = String c s ∧
         Ascii.eqb c "]" = false ∧ Ascii.eqb c "}" = false.
Proof.
  destruct (JSON_stringify_head v) as (c & s & -> & Hc).
  apply starts_value_dispatch in Hc as (Hws & H1 & H2).
  exists c, (s +:+ rest). rewrite append_cons. cbn. by rewrite Hws.
Qed.

Lemma parse_elems_stringify vs :
  Forall reads_back vs → forallb JSON_safe vs = true →
  ∀ fuel rest,
    String.length (stringify_elems JSON_stringify vs) ≤ fuel →
    parse_elems fuel (stringify_elems JSON_stringify vs +:+ rest) = Some (vs, rest).
Proof.
  induction 1 as [|v vs Hv _ IH]; intros Hsafe fuel rest Hfuel.
  - destruct fuel as [|fuel]; [cbn in Hfuel; lia|]. done.
  - cbn in Hsafe. apply andb_true_iff in Hsafe as [Hsv Hsvs].
    cbn [stringify_elems] in *. rewrite !length_append in Hfuel. cbn [String.length] in Hfuel.
    destruct fuel as [|fuel]; [lia|].
    rewrite !append_assoc, append_cons, append_nil_l. cbn.
    rewrite (Hv Hsv fuel) by (lia || apply ends_number_elems). cbn.
    rewrite IH by (done || lia). done.
Qed.

Lemma parse_member_stringify k v fuel tail :
  reads_back v → JSON_safe v = true →
  String.length (JSON_stringify v) ≤ fuel → ends_number tail = true →
  parse_member (parse_value fuel) (quote k +:+ ":" +:+ JSON_stringify v +:+ tail)
  = Some ((k, v), tail).
Proof.
  intros Hv Hsafe Hfuel Htail. unfold parse_member.
  destruct (parse_chars_quote k (":" +:+ JSON_stringify v +:+ tail)) as (tl & -> & Htl).
  cbn. rewrite Htl. cbn. rewrite append_cons, append_nil_l. cbn.
  by rewrite (Hv Hsafe fuel tail Hfuel Htail).
Qed.

Lemma parse_members_stringify ms :
  Forall (λ kv, reads_back kv.2) ms → forallb (λ kv, JSON_safe (snd kv)) ms = true →
  ∀ fuel rest,
    String.length (stringify_members JSON_stringify ms) ≤ fuel →
    parse_members fuel (stringify_members JSON_stringify ms +:+ rest) = Some (ms, rest).
Proof.
  induction 1 as [|[k v] ms Hv _ IH]; intros Hsafe fuel rest Hfuel.
  - destruct fuel as [|fuel]; [cbn in Hfuel; lia|]. done.
  - cbn in Hsafe. apply andb_true_iff in Hsafe as [Hsv Hsms].
    cbn [stringify_members] in *. rewrite !length_append in Hfuel.
    cbn [String.length] in Hfuel.
    destruct fuel as [|fuel]; [lia|].
    rewrite !append_assoc, append_cons, append_nil_l. cbn.
    rewrite (parse_member_stringify k v fuel) by (done || lia || apply ends_number_members).
    cbn. rewrite IH by (done || lia). done.
Qed.

Lemma obj_set_fresh (k : string) (v : value) (acc : list (string * value)) :
  k ∉ acc.*1 → obj_set k v acc = (acc ++ [(k, v)])%list.
Proof.
  induction acc as [|[k' v'] acc IH]; intros Hk; [done|]. cbn in *.
  apply not_elem_of_cons in Hk as [Hne Hk].
  destruct (String.eqb_spec k' k) as [->|_]; [done|]. by rewrite IH.
Qed.

Lemma obj_of_members_nodup (ms : list (string * value)) :
  NoDup (ms.*1) → obj_of_members ms = ms.
Proof.
  unfold obj_of_members.
  enough (H : ∀ acc : list (string * value), NoDup ((acc ++ ms)%list.*1) →
            foldl (λ acc kv, obj_set kv.1 kv.2 acc) acc ms = (acc ++ ms)%list)
    by apply (H []).
  induction ms as [|[k v] ms IH]; intros acc Hnd; [by rewrite app_nil_r|].
  cbn. rewrite obj_set_fresh.
  - rewrite IH; rewrite <- app_assoc; done.
  - rewrite fmap_app in Hnd. apply NoDup_app in Hnd as (_ & Hdisj & _).
    intros Hin. apply (Hdisj k Hin). cbn. apply list_elem_of_here.
Qed.

Lemma JSON_stringify_reads_back v : reads_back v.
Proof.
  induction v as [|b|n|s|vs IH|ms IH] using value_ind'; intros Hsafe fuel rest Hfuel Hrest.
  - destruct fuel as [|fuel]; [cbn in Hfuel; lia|]. done.
  - destruct fuel as [|fuel]; [destruct b; cbn in Hfuel; lia|]. by destruct b.
  - destruct fuel as [|fuel].
    { destruct (string_of_Z_head n) as (c & s & Hs & _). cbn in Hfuel.
      rewrite Hs in Hfuel. cbn in Hfuel. lia. }
    cbn [JSON_stringify parse_value].
    destruct (string_of_Z_head n) as (c & s & Hs & Hc).
    pose proof (parse_number_stringify n rest Hrest) as Hnum.
    rewrite Hs in Hnum |- *. rewrite append_cons in Hnum |- *.
    apply num_char_dispatch in Hc as (Hws & H1 & H2 & H3 & H4 & H5 & H6).
    cbn [skip_ws]. rewrite Hws, H1, H2, H3, H4, H5, H6. exact Hnum.
  - destruct fuel as [|fuel]; [cbn in Hfuel; lia|].
    cbn [JSON_stringify].
    destruct (parse_chars_quote s rest) as (tl & -> & Htl). cbn. by rewrite Htl.
  - destruct vs as [|v vs].
    { destruct fuel as [|fuel]; [cbn in Hfuel; lia|]. done. }
    cbn in Hsafe. apply andb_true_iff in Hsafe as [Hsv Hsvs].
    apply Forall_cons in IH as [Hv Hvs].
    cbn [JSON_stringify] in *. rewrite !length_append in Hfuel.
    cbn [String.length] in Hfuel. destruct fuel as [|fuel]; [lia|].
    rewrite !append_assoc, append_cons, append_nil_l. cbn.
    destruct (skip_ws_value v (stringify_elems JSON_stringify vs +:+ rest))
      as (c & s & Hcs & Hskip & Hc & _).
    rewrite Hcs, Hskip, Hc, <- Hcs.
    rewrite (Hv Hsv fuel) by (lia || apply ends_number_elems). cbn.
    rewrite parse_elems_stringify by (done || lia). done.
  - destruct ms as [|[k v] ms].
    { destruct fuel as [|fuel]; [cbn in Hfuel; lia|]. done. }
    cbn in Hsafe. apply andb_true_iff in Hsafe as [Hnd Hsafe].
    apply bool_decide_eq_true in Hnd.
    apply andb_true_iff in Hsafe as [Hsv Hsms].
    apply Forall_cons in IH as [Hv Hms]. cbn in Hv.
    cbn [JSON_stringify] in *. rewrite !length_append in Hfuel.
    cbn [String.length] in Hfuel. destruct fuel as [|fuel]; [lia|].
    rewrite !append_assoc, append_cons, append_nil_l. cbn.
    assert (Hq : ∃ tl, quote k +:+ ":" +:+ JSON_stringify v +:+
                       stringify_members JSON_stringify ms +:+ rest = String dquote tl).
    { destruct (parse_chars_quote k (":" +:+ JSON_stringify v +:+
                  stringify_members JSON_stringify ms +:+ rest)) as (tl & Htl & _).
      by exists tl. }
    destruct Hq as (tl & Htl). rewrite Htl.
    change (skip_ws (String dquote tl)) with (String dquote tl).
    change (Ascii.eqb dquote "}") with false. cbn iota. rewrite <- Htl.
    rewrite (parse_member_stringify k v fuel) by (done || lia || apply ends_number_members).
    cbn -[obj_of_members]. rewrite parse_members_stringify by (done || lia).
    cbn -[obj_of_members].
    change (foldl _ [(k, v)] ms) with (obj_of_members ((k, v) :: ms)).
    by rewrite (obj_of_members_nodup ((k, v) :: ms)).
Qed.

Lemma JSON_stringify_nonempty v : truthy (JSON_stringify v) = true.
Proof. destruct (JSON_stringify_head v) as (c & s & -> & _). done. Qed.

(** [JSON.parse(JSON.stringify(v))] is [v]. *)
Lemma JSON_parse_stringify v :
  JSON_safe v = true → JSON_parse (JSON_stringify v) = Normal v.
Proof.
  intros Hsafe. unfold JSON_parse.
  pose proof (JSON_stringify_reads_back v Hsafe (String.length (JSON_stringify v)) ""
                (le_n _) eq_refl) as H.
  rewrite append_nil_r in H. by rewrite H.
Qed.

(** *** The collections *)

#[export] Instance string_JSONLaws : JSONLaws string.
Proof. by split. Qed.

#[export] Instance number_JSONLaws : JSONLaws Z.
Proof. by split. Qed.

#[export] Instance Status_JSONLaws : JSONLaws Status.
Proof. split; by intros []. Qed.

#[export] Instance Array_JSONLaws {T} `{JSONLaws T} : JSONLaws (list T).
Proof.
  split; intros l.
  - cbn. apply mapM_fmap_Some. intros x. apply of_to_value.
  - cbn. induction l as [|x l IH]; [done|]. cbn. by rewrite to_value_safe, IH.
Qed.

#[export] Instance Attachment_JSONLaws : JSONLaws Attachment.t.
Proof. split; by intros []. Qed.

#[export] Instance Reporter_JSONLaws : JSONLaws Reporter.t.
Proof. split; by intros [[][]]. Qed.

#[export] Instance ContentBlock_JSONLaws : JSONLaws ContentBlock.t.
Proof. split; by intros []. Qed.

#[export] Instance Settings_JSONLaws : JSONLaws Settings.t.
Proof.
  split; intros [c s p].
  - change (of_value (to_value (Settings.mk c s p)))
      with (c' ← of_value (to_value c); s' ← of_value (to_value s);
            p' ← of_value (to_value p); Some (Settings.mk c' s' p')).
    by rewrite !of_to_value.
  - change (JSON_safe (to_value (Settings.mk c s p)))
      with (bool_decide (NoDup ["categories"; "servers"; "priorities"])
            && (JSON_safe (to_value c) && (JSON_safe (to_value s)
            && (JSON_safe (to_value p) && true)))).
    rewrite !to_value_safe. done.
Qed.

#[export] Instance Incident_JSONLaws : JSONLaws Incident.t.
Proof.
  split; intros [id title description category server priority status reporter
                 attachments createdAt updatedAt].
  - destruct reporter as [r|].
    + change (of_value (to_value (Incident.mk id title description category server
                priority status (Some r) attachments createdAt updatedAt)))
        with (s' ← of_value (to_value status);
              r' ← Some <$> of_value (to_value r);
              a' ← of_value (to_value attachments);
              Some (Incident.mk id title description category server priority s'
                                r' a' createdAt updatedAt)).
      by rewrite !of_to_value.
    + change (of_value (to_value (Incident.mk id title description category server
                priority status None attachments createdAt updatedAt)))
        with (s' ← of_value (to_value status);
              a' ← of_value (to_value attachments);
              Some (Incident.mk id title description category server priority s'
                                None a' createdAt updatedAt)).
      by rewrite !of_to_value.
  - destruct reporter as [r|].
    + change (JSON_safe (to_value (Incident.mk id title description category server
                priority status (Some r) attachments createdAt updatedAt)))
        with (JSON_safe (to_value attachments) && (JSON_safe (to_value r) && true)).
      by rewrite !to_value_safe.
    + change (JSON_safe (to_value (Incident.mk id title description category server
                priority status None attachments createdAt updatedAt)))
        with (JSON_safe (to_value attachments) && true).
      by rewrite !to_value_safe.
Qed.

(* ===================================================================== *)
(** * Persistence: [saveLS] and [loadLS] *)
(* ===================================================================== *)

Lemma saveLS_localStorage key v w :
  localStorage (exec (saveLS key v) w) = <[key := JSON_stringify v]> (localStorage w).
Proof. reflexivity. Qed.

Lemma loadLS_after_saveLS key fallback v w :
  JSON_safe v = true →
  loadLS key fallback (localStorage (exec (saveLS key v) w)) = Normal v.
Proof.
  intros Hsafe. rewrite saveLS_localStorage. unfold loadLS.
  rewrite lookup_insert_eq. rewrite JSON_stringify_nonempty.
  by rewrite (JSON_parse_stringify v Hsafe).
Qed.

Lemma loadLS_as_after_saveLS {T} `{JSONLaws T} key (fallback c : T) w :
  loadLS_as key fallback (localStorage (exec (saveLS key (to_value c)) w))
  = Normal (Some c).
Proof.
  unfold loadLS_as. rewrite loadLS_after_saveLS by apply to_value_safe.
  by rewrite of_to_value.
Qed.

Lemma loadLS_as_insert {T} `{JSONLaws T} key (fallback c : T) (store : gmap string string) :
  loadLS_as key fallback (<[key := JSON_stringify (to_value c)]> store) = Normal (Some c).
Proof.
  unfold loadLS_as, loadLS. rewrite lookup_insert_eq, JSON_stringify_nonempty.
  rewrite (JSON_parse_stringify _ (to_value_safe c)). cbn. by rewrite of_to_value.
Qed.

Lemma loadLS_as_insert_ne {T} `{JSONData T} key key' text (fallback : T)
    (store : gmap string string) :
  key' ≠ key →
  loadLS_as key fallback (<[key' := text]> store) = loadLS_as key fallback store.
Proof. intros Hne. unfold loadLS_as, loadLS. by rewrite lookup_insert_ne. Qed.

(** C7: what [saveLS] stores under a key, [loadLS] gives back from that key.
    This holds for every value [JSON.stringify] writes in full, and so for
    every Incident collection, every ContentBlock collection and every
    Settings record, the empty collections included: the reloaded collection
    has the same records in the same order with the same field values. After
    the three saving effects of the component, loading the three keys gives
    the three collections of the state. *)
Theorem C7_saveLS_loadLS_roundtrip :
  (∀ (w : World) (key : string) (fallback v : value),
     JSON_safe v = true →
     loadLS key fallback (localStorage (exec (saveLS key v) w)) = Normal v) ∧
  (∀ (w : World) (key : string) (fallback c : list Incident.t),
     loadLS_as key fallback (localStorage (exec (saveLS key (to_value c)) w))
     = Normal (Some c)) ∧
  (∀ (w : World) (key : string) (fallback c : list ContentBlock.t),
     loadLS_as key fallback (localStorage (exec (saveLS key (to_value c)) w))
     = Normal (Some c)) ∧
  (∀ (w : World) (key : string) (fallback c : Settings.t),
     loadLS_as key fallback (localStorage (exec (saveLS key (to_value c)) w))
     = Normal (Some c)) ∧
  (∀ (w : World) (key : string) (fallback : list Incident.t),
     loadLS_as key fallback
       (localStorage (exec (saveLS key (to_value ([] : list Incident.t))) w))
     = Normal (Some [])) ∧
  (∀ w : World,
     let store := localStorage (exec persist w) in
     loadLS_as LS_KEYS.incidents [] store = Normal (Some (incidents w)) ∧
     loadLS_as LS_KEYS.contentBlocks [] store = Normal (Some (contentBlocks w)) ∧
     loadLS_as LS_KEYS.settings DEFAULT_SETTINGS store = Normal (Some (settings w))).
Proof.
  split; [intros; by apply loadLS_after_saveLS|].
  split; [intros; apply loadLS_as_after_saveLS|].
  split; [intros; apply loadLS_as_after_saveLS|].
  split; [intros; apply loadLS_as_after_saveLS|].
  split; [intros; apply (loadLS_as_after_saveLS key fallback [] w)|].
  intros w store. subst store.
  change (localStorage (exec persist w))
    with (<[LS_KEYS.settings := JSON_stringify (to_value (settings w))]>
           (<[LS_KEYS.contentBlocks := JSON_stringify (to_value (contentBlocks w))]>
             (<[LS_KEYS.incidents := JSON_stringify (to_value (incidents w))]>
               (localStorage w)))).
  split; [|split].
  - rewrite !loadLS_as_insert_ne by done. apply loadLS_as_insert.
  - rewrite loadLS_as_insert_ne by done. apply loadLS_as_insert.
  - apply loadLS_as_insert.
Qed.

Lemma C7_witness :
  loadLS "k" VNull
    (localStorage (exec (saveLS "k" (to_value [sample_incident "inc_a"])) sample_world))
  = Normal (to_value [sample_incident "inc_a"]).
Proof.
  destruct C7_saveLS_loadLS_roundtrip as [Hval _].
  apply Hval. reflexivity.
Defined.

Lemma loadLS_cases key fallback (store : gmap string string) :
  loadLS key fallback store =
  match store !! key with
  | Some text =>
      if truthy text
      then match JSON_parse text with Normal v => Normal v | Throw _ => Normal fallback end
      else Normal fallback
  | None => Normal fallback
  end.
Proof.
  unfold loadLS, try_catch. destruct (store !! key) as [text|]; [|done].
  destruct (truthy text); [|done]. by destruct (JSON_parse text).
Qed.

(** C8: [loadLS] never throws. Whatever the storage holds under the key, it
    returns a value, which is the fallback or the parsed content of the key:
    the fallback when the key is missing, when its content is empty and when
    its content does not parse; the parsed value otherwise. The three loads
    of the component's initial state therefore all return, with an empty
    array as fallback for the incidents and the content blocks and
    [DEFAULT_SETTINGS] for the settings. *)
Theorem C8_loadLS_never_throws :
  ∀ (store : gmap string string) (key : string) (fallback : value),
    (∃ v, loadLS key fallback store = Normal v ∧
          (v = fallback ∨
           ∃ text, store !! key = Some text ∧ JSON_parse text = Normal v)) ∧
    (store !! key = None → loadLS key fallback store = Normal fallback) ∧
    (∀ text e, store !! key = Some text → JSON_parse text = Throw e →
       loadLS key fallback store = Normal fallback) ∧
    (∀ text v, store !! key = Some text → text ≠ "" → JSON_parse text = Normal v →
       loadLS key fallback store = Normal v) ∧
    (∃ i b s, initial_incidents store = Normal i ∧
              initial_contentBlocks store = Normal b ∧
              initial_settings store = Normal s) ∧
    (store !! LS_KEYS.incidents = None → initial_incidents store = Normal (VArr [])) ∧
    (store !! LS_KEYS.contentBlocks = None →
       initial_contentBlocks store = Normal (VArr [])) ∧
    (store !! LS_KEYS.settings = None →
       initial_settings store = Normal (to_value DEFAULT_SETTINGS)).
Proof.
  intros store key fallback.
  assert (Htotal : ∀ k fb, ∃ v, loadLS k fb store = Normal v ∧
            (v = fb ∨ ∃ text, store !! k = Some text ∧ JSON_parse text = Normal v)).
  { intros k fb. rewrite loadLS_cases. destruct (store !! k) as [text|] eqn:Hk; [|by eauto].
    destruct (truthy text); [|by eauto].
    destruct (JSON_parse text) as [v|e] eqn:Hp; [|by eauto].
    exists v. split; [done|]. right. by exists text. }
  assert (Hmissing : ∀ k fb, store !! k = None → loadLS k fb store = Normal fb).
  { intros k fb Hk. by rewrite loadLS_cases, Hk. }
  split; [apply Htotal|]. split; [apply Hmissing|]. split; [|split; [|split]].
  - intros text e Hk Hp. rewrite loadLS_cases, Hk, Hp. by destruct (truthy text).
  - intros text v Hk Hne Hp. rewrite loadLS_cases, Hk, Hp.
    unfold truthy. apply String.eqb_neq in Hne. by rewrite Hne.
  - destruct (Htotal LS_KEYS.incidents (VArr [])) as (i & Hi & _).
    destruct (Htotal LS_KEYS.contentBlocks (VArr [])) as (b & Hb & _).
    destruct (Htotal LS_KEYS.settings (to_value DEFAULT_SETTINGS)) as (s & Hs & _).
    by exists i, b, s.
  - repeat split; apply Hmissing.
Qed.

Lemma C8_witness :
  loadLS LS_KEYS.incidents (VArr []) ∅ = Normal (VArr []) ∧
  loadLS LS_KEYS.incidents (VArr []) {[ LS_KEYS.incidents := "{oops" ]} = Normal (VArr []) ∧
  loadLS LS_KEYS.incidents (VArr []) {[ LS_KEYS.incidents := "[]" ]} = Normal (VArr []) ∧
  loadLS LS_KEYS.settings (to_value DEFAULT_SETTINGS)
         {[ LS_KEYS.settings := "[1, 2]" ]} = Normal (VArr [VNum 1; VNum 2]).
Proof.
  split; [|split; [|split]].
  - destruct (C8_loadLS_never_throws ∅ LS_KEYS.incidents (VArr [])) as (_ & H & _).
    apply H. apply lookup_empty.
  - destruct (C8_loadLS_never_throws {[ LS_KEYS.incidents := "{oops" ]}
                LS_KEYS.incidents (VArr [])) as (_ & _ & H & _).
    apply (H "{oops" SyntaxError); [apply lookup_singleton_eq|reflexivity].
  - destruct (C8_loadLS_never_throws {[ LS_KEYS.incidents := "[]" ]}
                LS_KEYS.incidents (VArr [])) as (_ & _ & _ & H & _).
    apply (H "[]"); [apply lookup_singleton_eq|done|reflexivity].
  - destruct (C8_loadLS_never_throws {[ LS_KEYS.settings := "[1, 2]" ]}
                LS_KEYS.settings (to_value DEFAULT_SETTINGS)) as (_ & _ & _ & H & _).
    apply (H "[1, 2]"); [apply lookup_singleton_eq|done|reflexivity].
Defined.

(* ===================================================================== *)
(** * Content blocks: [upsertBlock] and [deleteBlock] *)
(* ===================================================================== *)

Lemma Array_map_stamp_run {A} (p : A → bool) (g : A → string → A) l w :
  ∃ l', Array_map (λ x, if p x then let* now := Date_now_toISOString in ret (g x now)
                        else ret x) l w
        = (l', advance (length (List.filter p l)) w) ∧
        length l' = length l ∧
        ∀ i x, l !! i = Some x →
          l' !! i = Some (if p x
                          then g x (clock w (ticks w + length (List.filter p (take i l))))
                          else x).
Proof.
  set (f := λ x : A, if p x then let* now := Date_now_toISOString in ret (g x now)
                     else ret x).
  revert w. induction l as [|y l IH]; intros w.
  - exists []. split; [by destruct w|]. split; [done|]. intros i x Hi. by destruct i.
  - cbn [Array_map List.filter]. unfold bind at 1.
    change (f y) with (if p y then let* now := Date_now_toISOString in ret (g y now)
                       else ret y).
    destruct (p y) eqn:Hy.
    + unfold bind at 1, Date_now_toISOString, ret at 1.
      set (w1 := mkWorld _ _ _ _ _ _ (S (ticks w)) _ _).
      destruct (IH w1) as (l' & Hrun & Hlen & Hlook).
      unfold bind. rewrite Hrun. exists (g y (clock w (ticks w)) :: l'). split.
      { unfold ret, advance. cbn. do 2 f_equal. lia. }
      split; [cbn; lia|].
      intros [|i] x Hi; cbn in Hi.
      * inversion Hi; subst x. rewrite Hy. cbn. do 3 f_equal. lia.
      * change ((g y (clock w (ticks w)) :: l') !! S i) with (l' !! i).
        rewrite (Hlook _ _ Hi). cbn [take List.filter]. rewrite Hy.
        destruct (p x); [|done]. do 3 f_equal. subst w1. cbn. lia.
    + unfold ret at 1. destruct (IH w) as (l' & Hrun & Hlen & Hlook).
      unfold bind. rewrite Hrun. exists (y :: l'). split; [done|]. split; [cbn; lia|].
      intros [|i] x Hi; cbn in Hi.
      * inversion Hi; subst x. by rewrite Hy.
      * change ((y :: l') !! S i) with (l' !! i).
        rewrite (Hlook _ _ Hi). cbn [take List.filter]. by rewrite Hy.
Qed.

Lemma upsertBlock_update_run block w :
  truthy_opt (opt_id block) = true →
  ∃ l', upsertBlock block w =
          (tt, mkWorld (incidents w) l' (settings w) (localStorage w) (toasts w) (clock w)
                 (length (List.filter (λ x, strict_eq_opt (ContentBlock.id x) (opt_id block))
                                      (contentBlocks w)) + ticks w)
                 (entropy w) (draws w)) ∧
        length l' = length (contentBlocks w) ∧
        ∀ i x, contentBlocks w !! i = Some x →
          l' !! i = Some (if strict_eq_opt (ContentBlock.id x) (opt_id block)
                          then merge_block x block
                                 (clock w (ticks w + length (List.filter
                                    (λ x, strict_eq_opt (ContentBlock.id x) (opt_id block))
                                    (take i (contentBlocks w)))))
                          else x).
Proof.
  intros Hid. unfold upsertBlock. rewrite Hid. cbn [negb].
  destruct (Array_map_stamp_run
              (λ x, strict_eq_opt (ContentBlock.id x) (opt_id block))
              (λ x now, merge_block x block now) (contentBlocks w) w)
    as (l' & Hrun & Hlen & Hlook).
  exists l'. split; [|done]. unfold setContentBlocks.
  change (Array_map (upsertBlock_cb block) (contentBlocks w) w)
    with (Array_map (λ x, if strict_eq_opt (ContentBlock.id x) (opt_id block)
                          then let* now := Date_now_toISOString in
                               ret (merge_block x block now)
                          else ret x) (contentBlocks w) w).
  by rewrite Hrun.
Qed.

Lemma strict_eq_opt_Some x bid : strict_eq_opt x (Some bid) = String.eqb x bid.
Proof. reflexivity. Qed.

Lemma filter_none_nil {A} (f : A → bool) (l : list A) :
  (∀ x, x ∈ l → f x = false) → List.filter f l = [].
Proof.
  induction l as [|x l IH]; intros H; [done|]. cbn.
  rewrite (H x) by apply list_elem_of_here. apply IH.
  intros y Hy. apply H. by apply list_elem_of_further.
Qed.

(** X1: [upsertBlock] with a block that has a (non-empty) id updates in
    place. The collection keeps its length; a block with that id keeps its
    id, takes the title and the body of the patch when the patch has them,
    and gets the clock reading as [updatedAt]; every other block is
    unchanged. *)
Theorem X1_upsertBlock_update :
  ∀ (w : World) (block : option ContentBlockPatch.t) (bid : string) (i : nat)
    (x : ContentBlock.t),
    opt_id block = Some bid → bid ≠ "" →
    contentBlocks w !! i = Some x →
    let w' := exec (upsertBlock block) w in
    length (contentBlocks w') = length (contentBlocks w) ∧
    (ContentBlock.id x = bid →
       ∃ x', contentBlocks w' !! i = Some x' ∧
             ContentBlock.id x' = bid ∧
             ContentBlock.title x' = default (ContentBlock.title x) (opt_title block) ∧
             ContentBlock.body x' = default (ContentBlock.body x) (opt_body block) ∧
             ContentBlock.updatedAt x' =
               clock w (ticks w + block_occurrences bid (take i (contentBlocks w)))) ∧
    (ContentBlock.id x ≠ bid → contentBlocks w' !! i = Some x).
Proof.
  intros w block bid i x Hid Hne Hi w'. subst w'.
  assert (Htr : truthy_opt (opt_id block) = true).
  { rewrite Hid. cbn. unfold truthy. apply negb_true_iff. by apply String.eqb_neq. }
  destruct (upsertBlock_update_run block w Htr) as (l' & Hrun & Hlen & Hlook).
  unfold exec. rewrite Hrun. cbn [snd contentBlocks]. split; [done|].
  rewrite (Hlook _ _ Hi). rewrite Hid, strict_eq_opt_Some. split.
  - intros Hx. apply String.eqb_eq in Hx as Hx'. rewrite Hx'.
    eexists. split; [done|]. cbn. rewrite Hid. cbn. by repeat split.
  - intros Hx. apply String.eqb_neq in Hx. by rewrite Hx.
Qed.

Lemma X1_witness :
  let w := exec onCreate sample_world in
  let w' := exec (upsertBlock (Some (ContentBlockPatch.mk (Some "blk_4fzyo82")
                                       (Some "Normas") None None))) w in
  ∃ x', contentBlocks w' !! 0 = Some x' ∧ ContentBlock.title x' = "Normas" ∧
        ContentBlock.body x' = "Escribe contenido en **Markdown**.".
Proof.
  intros w w'.
  destruct (X1_upsertBlock_update w
              (Some (ContentBlockPatch.mk (Some "blk_4fzyo82") (Some "Normas") None None))
              "blk_4fzyo82" 0
              {| ContentBlock.id := "blk_4fzyo82"; ContentBlock.title := "Nuevo bloque";
                 ContentBlock.body := "Escribe contenido en **Markdown**.";
                 ContentBlock.updatedAt := "2024-05-01T10:00:00.000Z" |}
              eq_refl ltac:(discriminate) eq_refl) as (_ & Hsame & _).
  destruct (Hsame eq_refl) as (x' & Hx & _ & Ht & Hb & _).
  exists x'. split; [exact Hx|]. split; [exact Ht|exact Hb].
Defined.

(** X2: [upsertBlock] does not insert. With an id that no block of the
    collection has, the collection is unchanged, nothing is created and the
    clock is not read. *)
Theorem X2_upsertBlock_unknown_id :
  ∀ (w : World) (block : option ContentBlockPatch.t) (bid : string),
    opt_id block = Some bid → bid ≠ "" →
    block_occurrences bid (contentBlocks w) = 0 →
    exec (upsertBlock block) w = w.
Proof.
  intros w block bid Hid Hne H0.
  assert (Htr : truthy_opt (opt_id block) = true).
  { rewrite Hid. cbn. unfold truthy. apply negb_true_iff. by apply String.eqb_neq. }
  destruct (upsertBlock_update_run block w Htr) as (l' & Hrun & Hlen & Hlook).
  unfold exec. rewrite Hrun. cbn [snd].
  assert (Hnone : ∀ x, x ∈ contentBlocks w →
            strict_eq_opt (ContentBlock.id x) (opt_id block) = false).
  { intros x Hx. rewrite Hid, strict_eq_opt_Some.
    destruct (String.eqb (ContentBlock.id x) bid) eqn:E; [|done]. exfalso.
    unfold block_occurrences in H0. apply length_zero_iff_nil in H0.
    assert (Hin : In x (List.filter (λ x, String.eqb (ContentBlock.id x) bid)
                          (contentBlocks w))).
    { apply filter_In. split; [by apply list_elem_of_In|done]. }
    rewrite H0 in Hin. destruct Hin. }
  rewrite (filter_none_nil _ _ Hnone). cbn [length Nat.add].
  assert (Hl : l' = contentBlocks w).
  { apply list_eq. intros i. destruct (contentBlocks w !! i) as [x|] eqn:Hi.
    - rewrite (Hlook _ _ Hi), Hnone; [done|]. by apply list_elem_of_lookup_2 with i.
    - apply lookup_ge_None in Hi. rewrite <- Hlen in Hi. by apply lookup_ge_None. }
  rewrite Hl. by destruct w.
Qed.

Lemma X2_witness :
  exec (upsertBlock (Some (ContentBlockPatch.mk (Some "blk_nope") (Some "t") (Some "b") None)))
       sample_world = sample_world.
Proof.
  apply (X2_upsertBlock_unknown_id sample_world _ "blk_nope");
    [reflexivity|discriminate|reflexivity].
Defined.

Lemma filter_negb_twice {A} (f : A → bool) (l : list A) :
  List.filter (λ x, negb (f x)) (List.filter (λ x, negb (f x)) l)
  = List.filter (λ x, negb (f x)) l.
Proof.
  induction l as [|x l IH]; [done|]. cbn. destruct (f x) eqn:E; cbn; [done|].
  by rewrite E, IH.
Qed.

(** X3: [deleteBlock] removes every block with the given id and nothing else:
    no block with that id remains, the other blocks stay, in their order, the
    length drops by the number of blocks that had the id, and deleting the same
    id again changes nothing. *)
Theorem X3_deleteBlock :
  ∀ (w : World) (id : string),
    let w' := exec (deleteBlock id) w in
    (∀ x, x ∈ contentBlocks w' → ContentBlock.id x ≠ id) ∧
    (∀ x, x ∈ contentBlocks w → ContentBlock.id x ≠ id → x ∈ contentBlocks w') ∧
    sublist (contentBlocks w') (contentBlocks w) ∧
    length (contentBlocks w') + block_occurrences id (contentBlocks w)
      = length (contentBlocks w) ∧
    exec (deleteBlock id) w' = w'.
Proof.
  intros w id w'. subst w'.
  change (contentBlocks (exec (deleteBlock id) w))
    with (List.filter (λ x, negb (String.eqb (ContentBlock.id x) id)) (contentBlocks w)).
  split; [|split; [|split; [|split]]].
  - intros x Hx. apply list_elem_of_In, filter_In in Hx as [_ Hx].
    by apply negb_true_iff, String.eqb_neq in Hx.
  - intros x Hx Hne. apply list_elem_of_In, filter_In. split; [by apply list_elem_of_In|].
    by apply negb_true_iff, String.eqb_neq.
  - apply filter_sublist.
  - apply (filter_negb_length (λ x, String.eqb (ContentBlock.id x) id)).
  - unfold exec, deleteBlock, setContentBlocks, ret. cbn.
    by rewrite (filter_negb_twice (λ x, String.eqb (ContentBlock.id x) id)).
Qed.

Lemma X3_witness :
  let w := exec onCreate sample_world in
  contentBlocks (exec (deleteBlock "blk_4fzyo82") w) = [] ∧
  exec (deleteBlock "blk_4fzyo82") (exec (deleteBlock "blk_4fzyo82") w)
  = exec (deleteBlock "blk_4fzyo82") w.
Proof.
  intros w.
  destruct (X3_deleteBlock w "blk_4fzyo82") as (_ & _ & _ & _ & Hagain).
  split; [reflexivity|exact Hagain].
Defined.

(** X4: [upsertBlock] never changes or removes the id of a block: after any
    call the ids of the collection are those it had before, in the same
    order, with the id of the created block in front when the call creates
    one (no id, or an empty one, in the argument). *)
Theorem X4_upsertBlock_keeps_ids :
  ∀ (w : World) (block : option ContentBlockPatch.t),
    let w' := exec (upsertBlock block) w in
    let ids := map ContentBlock.id in
    (truthy_opt (opt_id block) = true → ids (contentBlocks w') = ids (contentBlocks w)) ∧
    (truthy_opt (opt_id block) = false →
       ids (contentBlocks w')
       = ("blk_" +:+ slice 2 9 (entropy w (draws w))) :: ids (contentBlocks w)).
Proof.
  intros w block w' ids. subst w' ids. split; intros Hid.
  - destruct (upsertBlock_update_run block w Hid) as (l' & Hrun & Hlen & Hlook).
    unfold exec. rewrite Hrun. cbn [snd contentBlocks].
    apply list_eq. intros i. rewrite !list_lookup_fmap.
    destruct (contentBlocks w !! i) as [x|] eqn:Hi.
    + rewrite (Hlook _ _ Hi). cbn.
      destruct (opt_id block) as [bid|] eqn:Hb; [|done]. cbn.
      destruct (String.eqb_spec (ContentBlock.id x) bid) as [->|]; [|done].
      cbn. by rewrite Hb.
    + apply lookup_ge_None in Hi. rewrite <- Hlen in Hi.
      apply lookup_ge_None in Hi. by rewrite Hi.
  - unfold upsertBlock. by rewrite Hid.
Qed.

Lemma X4_witness :
  map ContentBlock.id (contentBlocks (exec onCreate sample_world)) = ["blk_4fzyo82"] ∧
  map ContentBlock.id
    (contentBlocks (exec (upsertBlock (Some (ContentBlockPatch.mk (Some "blk_4fzyo82")
                                               (Some "Normas") None None)))
                         (exec onCreate sample_world)))
  = ["blk_4fzyo82"].
Proof.
  split.
  - destruct (X4_upsertBlock_keeps_ids sample_world (Some ContentBlockPatch.empty))
      as [_ Hnew].
    exact (Hnew eq_refl).
  - destruct (X4_upsertBlock_keeps_ids (exec onCreate sample_world)
                (Some (ContentBlockPatch.mk (Some "blk_4fzyo82") (Some "Normas") None None)))
      as [Hkeep _].
    exact (Hkeep eq_refl).
Defined.

(** X5: saving from the edit dialog replaces the title and the body of the
    edited block by exactly the texts of the dialog, empty ones included (the
    defaults of a creation do not apply), and stamps it with the clock
    reading; the blocks with another id are unchanged. *)
Theorem X5_EditBlockDialog_save :
  ∀ (w : World) (block : ContentBlock.t) (title body : string) (i : nat)
    (x : ContentBlock.t),
    ContentBlock.id block ≠ "" →
    contentBlocks w !! i = Some x →
    let w' := exec (EditBlockDialog_save block title body) w in
    (ContentBlock.id x = ContentBlock.id block →
       block_occurrences (ContentBlock.id block) (take i (contentBlocks w)) = 0 →
       contentBlocks w' !! i =
         Some {| ContentBlock.id := ContentBlock.id block;
                 ContentBlock.title := title;
                 ContentBlock.body := body;
                 ContentBlock.updatedAt := clock w (ticks w) |}) ∧
    (ContentBlock.id x ≠ ContentBlock.id block → contentBlocks w' !! i = Some x).
Proof.
  intros w block title body i x Hne Hi w'. subst w'. unfold EditBlockDialog_save.
  set (patch := Some (ContentBlockPatch.mk (Some (ContentBlock.id block)) (Some title)
                        (Some body) None)).
  assert (Htr : truthy_opt (opt_id patch) = true).
  { cbn. unfold truthy. apply negb_true_iff. by apply String.eqb_neq. }
  destruct (upsertBlock_update_run patch w Htr) as (l' & Hrun & Hlen & Hlook).
  unfold exec. rewrite Hrun. cbn [snd contentBlocks].
  rewrite (Hlook _ _ Hi). cbn [opt_id patch mbind option_bind ContentBlockPatch.id].
  rewrite strict_eq_opt_Some. split.
  - intros Hx H0. apply String.eqb_eq in Hx as Hx'. rewrite Hx'.
    unfold block_occurrences in H0.
    change (λ x0, strict_eq_opt (ContentBlock.id x0) (Some (ContentBlock.id block)))
      with (λ x0, String.eqb (ContentBlock.id x0) (ContentBlock.id block)).
    rewrite H0, Nat.add_0_r. done.
  - intros Hx. apply String.eqb_neq in Hx. by rewrite Hx.
Qed.

Lemma X5_witness :
  let w := exec onCreate sample_world in
  let b := {| ContentBlock.id := "blk_4fzyo82"; ContentBlock.title := "Nuevo bloque";
              ContentBlock.body := "Escribe contenido en **Markdown**.";
              ContentBlock.updatedAt := "2024-05-01T10:00:00.000Z" |} in
  contentBlocks (exec (EditBlockDialog_save b "" "Texto") w) !! 0 =
    Some {| ContentBlock.id := "blk_4fzyo82"; ContentBlock.title := "";
            ContentBlock.body := "Texto";
            ContentBlock.updatedAt := "2024-05-01T10:00:01.000Z" |}.
Proof.
  intros w b.
  destruct (X5_EditBlockDialog_save w b "" "Texto" 0 b ltac:(discriminate) eq_refl)
    as [Hsame _].
  exact (Hsame eq_refl eq_refl).
Defined.

(* ===================================================================== *)
(** * Identifiers *)
(* ===================================================================== *)

Lemma substring_length_le n m s : String.length (substring n m s) ≤ m.
Proof.
  revert n m. induction s as [|c s IH]; intros [|n] [|m]; cbn; try lia.
  - specialize (IH 0 m). lia.
  - apply (IH n 0).
  - apply (IH n (S m)).
Qed.

Lemma substring_short n m s : String.length s ≤ n → substring n m s = "".
Proof.
  revert n m. induction s as [|c s IH]; intros [|n] m Hn; cbn in *; try (by destruct m); try lia.
  apply IH. lia.
Qed.

(** X6: [uid(prefix)] is the prefix, an underscore and at most seven
    characters, those at positions 2 to 8 of the text [Math.random()] is
    written as; when that text has no more than two characters (a draw of [0]
    is written ["0"]) the id is just the prefix and the underscore. One
    number is drawn, nothing else changes. *)
Theorem X6_uid_shape :
  ∀ (prefix : string) (w : World),
    let r := entropy w (draws w) in
    let id := eval (uid prefix) w in
    id = prefix +:+ "_" +:+ substring 2 7 r ∧
    String.length id ≤ String.length prefix + 8 ∧
    (String.length r ≤ 2 → id = prefix +:+ "_") ∧
    draws (exec (uid prefix) w) = S (draws w) ∧
    ticks (exec (uid prefix) w) = ticks w ∧
    incidents (exec (uid prefix) w) = incidents w ∧
    contentBlocks (exec (uid prefix) w) = contentBlocks w.
Proof.
  intros prefix w r id. subst r id.
  change (eval (uid prefix) w)
    with (prefix +:+ "_" +:+ substring 2 7 (entropy w (draws w))).
  split; [done|]. split; [|split; [|done]].
  - rewrite !length_append. cbn [String.length].
    pose proof (substring_length_le 2 7 (entropy w (draws w))). lia.
  - intros Hr. by rewrite (substring_short 2 7 _ Hr).
Qed.

Lemma X6_witness :
  eval (uid "att") (mkWorld [] [] DEFAULT_SETTINGS ∅ [] (λ _, "") 0 (λ _, "0") 0) = "att_".
Proof.
  destruct (X6_uid_shape "att"
              (mkWorld [] [] DEFAULT_SETTINGS ∅ [] (λ _, "") 0 (λ _, "0") 0))
    as (_ & _ & Hshort & _).
  apply Hshort. cbn. lia.
Defined.

(** X7: ids are not checked for uniqueness. When two consecutive draws agree
    on the characters [uid] keeps, two incidents created one after the other
    get the same id, and deleting by that id removes both of them. *)
Theorem X7_id_collision :
  ∀ (w : World) (d1 d2 : IncidentData.t),
    slice 2 9 (entropy w (draws w)) = slice 2 9 (entropy w (S (draws w))) →
    let w2 := exec (createIncident d2) (exec (createIncident d1) w) in
    ∃ a b, incidents w2 = b :: a :: incidents w ∧
           Incident.id a = Incident.id b ∧
           incidents (exec (deleteIncident (Incident.id b)) w2)
           = incidents (exec (deleteIncident (Incident.id b)) w).
Proof.
  intros w d1 d2 Hsame w2. subst w2.
  exists (new_incident ("inc_" +:+ slice 2 9 (entropy w (draws w)))
                       (clock w (ticks w)) d1),
         (new_incident ("inc_" +:+ slice 2 9 (entropy w (S (draws w))))
                       (clock w (S (ticks w))) d2).
  split; [done|]. split; [cbn; by rewrite Hsame|].
  rewrite !deleteIncident_incidents.
  change (incidents (exec (createIncident d2) (exec (createIncident d1) w)))
    with (new_incident ("inc_" +:+ slice 2 9 (entropy w (S (draws w))))
                       (clock w (S (ticks w))) d2
          :: new_incident ("inc_" +:+ slice 2 9 (entropy w (draws w)))
                          (clock w (ticks w)) d1 :: incidents w).
  cbn [List.filter new_incident Incident.id]. rewrite Hsame, String.eqb_refl. done.
Qed.

Lemma X7_witness :
  length (incidents (exec (deleteIncident "inc_4fzyo82")
                       (exec (createIncident (sample_data Cerrada))
                          (exec (createIncident (sample_data Abierta)) sample_world)))) = 0.
Proof.
  destruct (X7_id_collision sample_world (sample_data Abierta) (sample_data Cerrada) eq_refl)
    as (a & b & Hl & _ & Hdel).
  injection Hl as Hb Ha. subst b. exact (f_equal length Hdel).
Defined.

(** X8: creating an incident and deleting it again gives the collection back,
    provided no incident already had the id that was generated. *)
Theorem X8_create_then_delete :
  ∀ (w : World) (data : IncidentData.t),
    let id := "inc_" +:+ slice 2 9 (entropy w (draws w)) in
    occurrences id (incidents w) = 0 →
    incidents (exec (deleteIncident id) (exec (createIncident data) w)) = incidents w.
Proof.
  intros w data id H0. rewrite deleteIncident_incidents.
  change (incidents (exec (createIncident data) w))
    with (new_incident id (clock w (ticks w)) data :: incidents w).
  cbn [List.filter new_incident Incident.id]. rewrite String.eqb_refl. cbn [negb].
  rewrite <- (deleteIncident_unknown id w H0) at 2. by rewrite deleteIncident_incidents.
Qed.

Lemma X8_witness :
  incidents (exec (deleteIncident "inc_4fzyo82")
               (exec (createIncident (sample_data Abierta)) sample_world2))
  = incidents sample_world2.
Proof. exact (X8_create_then_delete sample_world2 (sample_data Abierta) eq_refl). Defined.

(* ===================================================================== *)
(** * QuickStats *)
(* ===================================================================== *)

Lemma Status_eqb_eq a b : Status_eqb a b = true ↔ a = b.
Proof. destruct a, b; cbn; split; (done || discriminate). Qed.

Lemma QuickStats_byStatus_counts l :
  QuickStats_byStatus l =
  [ ("Abierta", status_count Abierta l); ("En progreso", status_count En_progreso l);
    ("Resuelta", status_count Resuelta l); ("Cerrada", status_count Cerrada l) ].
Proof. reflexivity. Qed.

Lemma status_count_cons s x l :
  status_count s (x :: l) =
  (if Status_eqb (Incident.status x) s then 1 else 0) + status_count s l.
Proof.
  unfold status_count, Status_eqb. cbn [List.filter].
  by destruct (String.eqb _ _).
Qed.

(** X9: the four tiles of [QuickStats] are the four statuses in the order of
    [STATUS_OPTIONS], each incident is counted in exactly one of them, so the
    four counts add up to the number of incidents; the count of critical
    incidents is at most that number. *)
Theorem X9_QuickStats_partition :
  ∀ (l : list Incident.t),
    map fst (QuickStats_byStatus l) = STATUS_OPTIONS ∧
    list_sum (map snd (QuickStats_byStatus l)) = length l ∧
    QuickStats_critical l ≤ length l.
Proof.
  intros l. split; [done|]. split.
  - rewrite QuickStats_byStatus_counts. unfold list_sum. cbn [map snd fold_right].
    induction l as [|x l IH]; [done|].
    rewrite !status_count_cons. cbn [length].
    destruct (Incident.status x); cbn [Status_eqb Status_str String.eqb Ascii.eqb Bool.eqb];
      lia.
  - unfold QuickStats_critical.
    pose proof (filter_negb_length (λ i, String.eqb (Incident.priority i) "Crítica") l)
      as H.
    cbn beta in H. lia.
Qed.

Lemma updateIncident_statuses id status w :
  map Incident.status (incidents (exec (onStatusChange id status) w))
  = map (λ it, if String.eqb (Incident.id it) id then status else Incident.status it)
        (incidents w).
Proof.
  unfold onStatusChange. apply list_eq. intros i. rewrite !list_lookup_fmap.
  destruct (incidents w !! i) as [it|] eqn:Hi.
  - rewrite (updateIncident_lookup _ _ _ _ _ Hi). cbn.
    by destruct (String.eqb (Incident.id it) id).
  - apply lookup_ge_None in Hi.
    rewrite <- (updateIncident_length id
                  (IncidentPatch.mk None None None None None None (Some status)
                                    None None None None) w) in Hi.
    apply lookup_ge_None in Hi. by rewrite Hi.
Qed.

Lemma status_count_map s l :
  status_count s l =
  length (List.filter (λ t, Status_eqb t s) (map Incident.status l)).
Proof.
  induction l as [|x l IH]; [done|]. rewrite status_count_cons. cbn.
  destruct (Status_eqb (Incident.status x) s); cbn; by rewrite <- IH.
Qed.

Lemma occurrences_zero_not_in id l it :
  occurrences id l = 0 → it ∈ l → Incident.id it ≠ id.
Proof.
  unfold occurrences. intros H0 Hin Hid. apply length_zero_iff_nil in H0.
  assert (Hf : In it (List.filter (λ it, String.eqb (Incident.id it) id) l)).
  { apply filter_In. split; [by apply list_elem_of_In|]. by apply String.eqb_eq. }
  rewrite H0 in Hf. destruct Hf.
Qed.

Lemma status_move id new l it :
  occurrences id l = 1 → it ∈ l → Incident.id it = id →
  ∀ s,
    length (List.filter (λ t, Status_eqb t s)
              (map (λ it, if String.eqb (Incident.id it) id then new
                          else Incident.status it) l))
    + (if Status_eqb (Incident.status it) s then 1 else 0)
    = length (List.filter (λ t, Status_eqb t s) (map Incident.status l))
      + (if Status_eqb new s then 1 else 0).
Proof.
  induction l as [|x l IH]; intros H1 Hin Hid s; [by apply elem_of_nil in Hin|].
  unfold occurrences in H1. cbn [List.filter map] in *.
  destruct (String.eqb (Incident.id x) id) eqn:Hx.
  - cbn in H1. assert (H0 : occurrences id l = 0) by (unfold occurrences; lia).
    apply elem_of_cons in Hin as [->|Hin].
    + assert (Hsame : map (λ it, if String.eqb (Incident.id it) id then new
                                 else Incident.status it) l = map Incident.status l).
      { apply map_ext_in. intros y Hy. apply list_elem_of_In in Hy.
        pose proof (occurrences_zero_not_in _ _ _ H0 Hy) as Hne.
        apply String.eqb_neq in Hne. by rewrite Hne. }
      rewrite Hsame. destruct (Status_eqb new s), (Status_eqb (Incident.status x) s);
        cbn; lia.
    + by destruct (occurrences_zero_not_in _ _ _ H0 Hin).
  - apply elem_of_cons in Hin as [->|Hin].
    { apply String.eqb_neq in Hx. done. }
    specialize (IH H1 Hin Hid s).
    destruct (Status_eqb (Incident.status x) s); cbn; lia.
Qed.

(** X10: changing the status of an incident from the table, when exactly one
    incident has the id, moves one unit between the tiles of [QuickStats]: the
    count of the new status goes up by one, the count of the old one down by
    one, the other counts stay; choosing the status the incident already has
    changes no count. *)
Theorem X10_status_change_moves_one :
  ∀ (w : World) (id : string) (status : Status) (it : Incident.t),
    occurrences id (incidents w) = 1 → it ∈ incidents w → Incident.id it = id →
    let l := incidents w in
    let l' := incidents (exec (onStatusChange id status) w) in
    (Incident.status it = status → ∀ s, status_count s l' = status_count s l) ∧
    (Incident.status it ≠ status →
       status_count status l' = S (status_count status l) ∧
       S (status_count (Incident.status it) l') = status_count (Incident.status it) l ∧
       ∀ s, s ≠ status → s ≠ Incident.status it → status_count s l' = status_count s l).
Proof.
  intros w id status it H1 Hin Hid l l'. subst l l'.
  assert (Heq : ∀ s,
            status_count s (incidents (exec (onStatusChange id status) w))
            + (if Status_eqb (Incident.status it) s then 1 else 0)
            = status_count s (incidents w) + (if Status_eqb status s then 1 else 0)).
  { intros s. rewrite !status_count_map, updateIncident_statuses.
    by apply status_move. }
  assert (Hb : ∀ a b, (if Status_eqb a b then 1 else 0) = 1 ↔ a = b).
  { intros a b. rewrite <- Status_eqb_eq. destruct (Status_eqb a b); split; (done || lia). }
  assert (Hb0 : ∀ a b, a ≠ b → (if Status_eqb a b then 1 else 0) = 0).
  { intros a b Hne. destruct (Status_eqb a b) eqn:E; [|done].
    by apply Status_eqb_eq in E. }
  split.
  - intros Hst s. specialize (Heq s). rewrite Hst in Heq. lia.
  - intros Hne. split; [|split].
    + specialize (Heq status). rewrite (Hb0 _ _ Hne) in Heq.
      rewrite (proj2 (Hb status status) eq_refl) in Heq. lia.
    + specialize (Heq (Incident.status it)).
      rewrite (proj2 (Hb _ _) eq_refl) in Heq.
      rewrite (Hb0 status (Incident.status it)) in Heq by congruence. lia.
    + intros s Hs1 Hs2. specialize (Heq s).
      rewrite (Hb0 (Incident.status it) s), (Hb0 status s) in Heq by congruence. lia.
Qed.

Lemma X10_witness :
  let w' := exec (onStatusChange "inc_a" Resuelta) sample_world2 in
  status_count Resuelta (incidents w') = 1 ∧
  S (status_count Abierta (incidents w')) = 2.
Proof.
  intros w'.
  destruct (X10_status_change_moves_one sample_world2 "inc_a" Resuelta
              (sample_incident "inc_a") eq_refl (list_elem_of_here _ _) eq_refl)
    as [_ Hmove].
  destruct (Hmove ltac:(discriminate)) as (Hup & Hdown & _).
  split; [exact Hup|exact Hdown].
Defined.

(* ===================================================================== *)
(** * SettingsDialog *)
(* ===================================================================== *)

Lemma split_on_nonnil sep s : split_on sep s ≠ [].
Proof.
  destruct s as [|c s]; [done|]. cbn. destruct (Ascii.eqb c sep); [done|].
  by destruct (split_on sep s).
Qed.

Lemma split_on_pieces sep s p : p ∈ split_on sep s → ¬ In sep (chars p).
Proof.
  revert p. induction s as [|c s IH]; intros p Hp.
  - apply list_elem_of_singleton in Hp as ->. by intros [].
  - cbn in Hp. destruct (Ascii.eqb_spec c sep) as [->|Hne].
    + apply elem_of_cons in Hp as [->|Hp]; [by intros []|by apply IH].
    + destruct (split_on sep s) as [|q qs] eqn:E; [by destruct (split_on_nonnil sep s)|].
      apply elem_of_cons in Hp as [->|Hp].
      * cbn. intros [Hc|Hin]; [done|]. apply (IH q); [apply list_elem_of_here|done].
      * apply IH. by apply list_elem_of_further.
Qed.

Lemma chars_drop_bytes n s c : In c (chars (drop_bytes n s)) → In c (chars s).
Proof.
  revert s. induction n as [|n IH]; intros s H; [by destruct s|].
  destruct s as [|d s]; [done|]. cbn in *. right. by apply IH.
Qed.

Lemma chars_trimStart_from fuel s c :
  In c (chars (trimStart_from fuel s)) → In c (chars s).
Proof.
  revert s. induction fuel as [|fuel IH]; intros s H; [done|].
  cbn [trimStart_from] in H. destruct (space_width s) as [|k]; [done|].
  by apply IH, chars_drop_bytes in H.
Qed.

Lemma chars_trimEnd s c : In c (chars (trimEnd s)) → In c (chars s).
Proof.
  induction s as [|d s IH]; [done|]. cbn [trimEnd].
  destruct (String.eqb (trimStart (String d s)) ""); [done|].
  cbn. intros [H|H]; [by left|right; by apply IH].
Qed.

Lemma chars_trim s c : In c (chars (trim s)) → In c (chars s).
Proof. intros H. by apply chars_trimEnd, chars_trimStart_from in H. Qed.

(** X11: whatever is typed in a field of the settings dialog, every label that
    is saved from it is non-empty, contains no comma, and is the trimmed text
    of one of the comma-separated pieces; the saved list is never longer than
    the list of pieces. *)
Theorem X11_parse_labels_clean :
  ∀ (text x : string),
    x ∈ parse_labels text →
    x ≠ "" ∧ ¬ In ","%char (chars x) ∧
    (∃ piece, piece ∈ split_on "," text ∧ x = trim piece) ∧
    length (parse_labels text) ≤ length (split_on "," text).
Proof.
  intros text x Hx. unfold parse_labels in *.
  apply list_elem_of_In, filter_In in Hx as [Hin Htr].
  apply in_map_iff in Hin as (piece & <- & Hpiece). apply list_elem_of_In in Hpiece.
  split; [|split; [|split]].
  - intros E. rewrite E in Htr. discriminate.
  - intros Hc. apply chars_trim in Hc. by apply (split_on_pieces _ _ _ Hpiece).
  - by exists piece.
  - pose proof (filter_negb_length truthy (map trim (split_on "," text))) as Hl.
    rewrite length_map in Hl. lia.
Qed.

Lemma X11_witness :
  "c d" ≠ "" ∧ ¬ In ","%char (chars "c d").
Proof.
  destruct (X11_parse_labels_clean " a , ,b,, c d " "c d") as (H1 & H2 & _).
  - unfold parse_labels. apply list_elem_of_In. vm_compute. tauto.
  - split; [exact H1|exact H2].
Defined.

Lemma split_on_app x s :
  ¬ In ","%char (chars x) →
  split_on "," (x +:+ s) =
  match split_on "," s with
  | p :: ps => (x +:+ p) :: ps
  | [] => [x]
  end.
Proof.
  induction x as [|c x IH]; intros Hx.
  - rewrite append_nil_l. destruct (split_on "," s) eqn:E; [|done].
    by destruct (split_on_nonnil "," s).
  - rewrite append_cons. cbn [split_on].
    destruct (Ascii.eqb_spec c ",") as [->|Hne]; [exfalso; apply Hx; by left|].
    rewrite IH by (intros H; apply Hx; by right).
    destruct (split_on "," s) as [|p ps] eqn:E; [by destruct (split_on_nonnil "," s)|].
    by rewrite append_cons.
Qed.

Lemma split_on_join x l :
  Forall (λ y, ¬ In ","%char (chars y)) (x :: l) →
  split_on "," (join ", " (x :: l)) = x :: map (λ y, " " +:+ y) l.
Proof.
  revert x. induction l as [|y l IH]; intros x Hall.
  - apply Forall_cons in Hall as [Hx _]. cbn [join map].
    rewrite <- (append_nil_r x) at 1. rewrite split_on_app by done. cbn.
    by rewrite append_nil_r.
  - apply Forall_cons in Hall as [Hx Hall].
    change (join ", " (x :: y :: l)) with (x +:+ ", " +:+ join ", " (y :: l)).
    rewrite split_on_app by done.
    change (", " +:+ join ", " (y :: l)) with (String "," (" " +:+ join ", " (y :: l))).
    cbn [split_on].
    change (Ascii.eqb "," ",") with true. cbn iota.
    rewrite (split_on_app " ") by (cbn; intros [H|[]]; discriminate H).
    rewrite (IH y Hall). rewrite append_nil_r. done.
Qed.

Lemma trim_space_prefix y : trim (" " +:+ y) = trim y.
Proof. reflexivity. Qed.

Lemma parse_labels_join l :
  Forall clean_label l → parse_labels (join ", " l) = l.
Proof.
  intros Hall. destruct l as [|x l]; [done|]. unfold parse_labels.
  rewrite split_on_join.
  2:{ eapply Forall_impl; [exact Hall|]. by intros y (_ & Hy & _). }
  apply Forall_cons in Hall as [(Hx1 & _ & Hx3) Hall]. cbn [map List.filter].
  rewrite Hx3. assert (Htx : truthy x = true).
  { unfold truthy. apply negb_true_iff. by apply String.eqb_neq. }
  rewrite Htx. f_equal.
  induction Hall as [|y l (Hy1 & _ & Hy3) _ IH]; [done|]. cbn [map List.filter].
  rewrite trim_space_prefix, Hy3.
  assert (Hty : truthy y = true).
  { unfold truthy. apply negb_true_iff. by apply String.eqb_neq. }
  rewrite Hty. by f_equal.
Qed.

(** X12: opening the settings dialog and saving without editing leaves the
    settings as they are, provided every label is non-empty, has no comma and
    no white space around it: the text the dialog shows for a list
    ([join(", ")]) is read back as that list. *)
Theorem X12_SettingsDialog_roundtrip :
  ∀ (w : World),
    Forall clean_label (Settings.categories (settings w)) →
    Forall clean_label (Settings.servers (settings w)) →
    Forall clean_label (Settings.priorities (settings w)) →
    exec (SettingsDialog.save (SettingsDialog.initial (settings w))) w = w.
Proof.
  intros w Hc Hs Hp. unfold exec, SettingsDialog.save, SettingsDialog.initial, setSettings.
  cbn [SettingsDialog.cats SettingsDialog.srvs SettingsDialog.pris snd].
  rewrite !parse_labels_join by done. by destruct w as [? ? [] ? ? ? ? ? ?].
Qed.

Lemma clean_label_dec x :
  negb (String.eqb x "") && forallb (λ c, negb (Ascii.eqb c ",")) (chars x)
  && String.eqb (trim x) x = true → clean_label x.
Proof.
  intros H. apply andb_true_iff in H as [H H3]. apply andb_true_iff in H as [H1 H2].
  split; [|split].
  - apply negb_true_iff, String.eqb_neq in H1. done.
  - intros Hin. rewrite forallb_forall in H2. specialize (H2 _ Hin).
    by rewrite Ascii.eqb_refl in H2.
  - by apply String.eqb_eq.
Qed.

Lemma X12_witness :
  exec (SettingsDialog.save (SettingsDialog.initial (settings sample_world))) sample_world
  = sample_world.
Proof.
  apply X12_SettingsDialog_roundtrip;
    cbn [settings sample_world DEFAULT_SETTINGS Settings.categories Settings.servers
         Settings.priorities];
    repeat (constructor; [apply clean_label_dec; vm_compute; reflexivity|]);
    constructor.
Defined.

(* ===================================================================== *)
(** * IncidentForm *)
(* ===================================================================== *)

Lemma truthy_false s : truthy s = false ↔ s = "".
Proof.
  unfold truthy. rewrite negb_false_iff. apply String.eqb_eq.
Qed.

Lemma truthy_true s : truthy s = true ↔ s ≠ "".
Proof.
  unfold truthy. rewrite negb_true_iff. apply String.eqb_neq.
Qed.

(** X13: [submit] rejects a form whose title or description is blank (empty
    or white space only): [onSubmit] is not called, so nothing is created, no
    toast is shown, and the form keeps what was typed. *)
Theorem X13_submit_rejects_blank :
  ∀ (onSubmit : IncidentData.t → M unit) (st : IncidentForm.t) (w : World),
    trim (IncidentForm.title st) = "" ∨ trim (IncidentForm.description st) = "" →
    IncidentForm.submit onSubmit st w = (st, w).
Proof.
  intros onSubmit st w Hblank. unfold IncidentForm.submit.
  assert (H : negb (truthy (trim (IncidentForm.title st)))
              || negb (truthy (trim (IncidentForm.description st))) = true).
  { apply orb_true_iff. destruct Hblank as [H|H]; [left|right];
      apply negb_true_iff; by apply truthy_false. }
  by rewrite H.
Qed.

Lemma X13_witness :
  let st := IncidentForm.mk "   " "algo" "General" "Lobby" "Media" "" "" [] in
  incidents (snd (Portal_submit st sample_world2)) = incidents sample_world2 ∧
  fst (Portal_submit st sample_world2) = st.
Proof.
  intros st. unfold Portal_submit.
  rewrite (X13_submit_rejects_blank Portal_onSubmit st sample_world2); [done|].
  left. reflexivity.
Defined.

(** X14: a form whose title and description are not blank creates, through
    the Portal, one incident in front of the collection: its title and
    description are the trimmed texts (so never empty), its status is
    [Abierta], its category, server, priority and attachments are those of the
    form, its reporter carries the trimmed email and Discord name, a blank
    one being left out; and the form is cleared, keeping only the category,
    server and priority that were selected. *)
Theorem X14_submit_creates :
  ∀ (st : IncidentForm.t) (w : World),
    trim (IncidentForm.title st) ≠ "" → trim (IncidentForm.description st) ≠ "" →
    let st' := fst (Portal_submit st w) in
    let w' := snd (Portal_submit st w) in
    (∃ n, incidents w' = n :: incidents w ∧
          Incident.title n = trim (IncidentForm.title st) ∧ Incident.title n ≠ "" ∧
          Incident.description n = trim (IncidentForm.description st) ∧
          Incident.description n ≠ "" ∧
          Incident.status n = Abierta ∧
          Incident.category n = IncidentForm.category st ∧
          Incident.server n = IncidentForm.server st ∧
          Incident.priority n = IncidentForm.priority st ∧
          Incident.attachments n = IncidentForm.attachments st ∧
          Incident.createdAt n = clock w (ticks w) ∧
          Incident.updatedAt n = clock w (ticks w) ∧
          (∃ r, Incident.reporter n = Some r ∧
                (trim (IncidentForm.email st) = "" → Reporter.email r = None) ∧
                (trim (IncidentForm.email st) ≠ "" →
                   Reporter.email r = Some (trim (IncidentForm.email st))) ∧
                (trim (IncidentForm.discord st) = "" → Reporter.discord r = None) ∧
                (trim (IncidentForm.discord st) ≠ "" →
                   Reporter.discord r = Some (trim (IncidentForm.discord st))))) ∧
    st' = IncidentForm.mk "" "" (IncidentForm.category st) (IncidentForm.server st)
                          (IncidentForm.priority st) "" "" [].
Proof.
  intros st w Ht Hd st' w'. subst st' w'. unfold Portal_submit, IncidentForm.submit.
  apply truthy_true in Ht as Ht', Hd as Hd'. rewrite Ht', Hd'. cbn [negb orb].
  split; [|done].
  eexists. split; [reflexivity|]. cbn.
  repeat (split; [done|]).
  eexists. split; [reflexivity|]. cbn. unfold IncidentForm.trim_or_undefined.
  repeat split.
  - intros E. by rewrite E.
  - intros E. apply truthy_true in E. by rewrite E.
  - intros E. by rewrite E.
  - intros E. apply truthy_true in E. by rewrite E.
Qed.

Lemma X14_witness :
  let st := IncidentForm.mk "  Lag en Lobby " "No carga" "General" "Lobby" "Media"
                            "  " "steve#0001 " [] in
  ∃ n, incidents (snd (Portal_submit st sample_world)) = [n] ∧
       Incident.title n = "Lag en Lobby" ∧ Incident.status n = Abierta.
Proof.
  intros st.
  destruct (X14_submit_creates st sample_world ltac:(discriminate) ltac:(discriminate))
    as [(n & Hn & Ht & _ & _ & _ & Hs & _) _].
  exists n. split; [exact Hn|]. split; [exact Ht|exact Hs].
Defined.

Lemma Array_map_attach_run (createObjectURL : IncidentForm.File → string) fs w :
  ∃ added,
    Array_map (IncidentForm.attach createObjectURL) fs w
    = (added, mkWorld (incidents w) (contentBlocks w) (settings w) (localStorage w)
                      (toasts w) (clock w) (ticks w) (entropy w) (length fs + draws w)) ∧
    length added = length fs ∧
    ∀ k f, fs !! k = Some f →
      added !! k =
        Some {| Attachment.id := "att_" +:+ slice 2 9 (entropy w (draws w + k));
                Attachment.name := IncidentForm.file_name f;
                Attachment.type := IncidentForm.file_type f;
                Attachment.size := IncidentForm.file_size f;
                Attachment.url := createObjectURL f |}.
Proof.
  revert w. induction fs as [|f0 fs IH]; intros w.
  - exists []. split; [by destruct w|]. split; [done|]. intros k f Hk. by destruct k.
  - cbn [Array_map]. unfold bind at 1, IncidentForm.attach at 1.
    unfold uid, bind at 1 2, Math_random_toString36, ret at 1 2.
    set (w1 := mkWorld _ _ _ _ _ _ _ _ (S (draws w))).
    destruct (IH w1) as (added & Hrun & Hlen & Hlook).
    unfold bind. rewrite Hrun. eexists (_ :: added). split.
    { unfold ret. cbn. do 2 f_equal. lia. }
    split; [cbn; lia|].
    intros [|k] f Hk; cbn in Hk.
    + inversion Hk; subst f0. cbn. by rewrite Nat.add_0_r.
    + match goal with |- (?a :: added) !! S k = _ => change ((a :: added) !! S k)
        with (added !! k) end.
      rewrite (Hlook _ _ Hk). subst w1. cbn [entropy draws].
      replace (S (draws w) + k) with (draws w + S k) by lia. done.
Qed.

(** X15: [handleFiles] puts the new attachments in front of those the form
    already has, in the order of the files, one per file, with the name, type
    and size of the file, its object URL and a generated ["att_"] id; the
    attachments already there are kept after them. With no file list
    ([null]) the attachments are unchanged and no id is drawn. *)
Theorem X15_handleFiles_prepends :
  ∀ (createObjectURL : IncidentForm.File → string)
    (files : option (list IncidentForm.File)) (prev : list Attachment.t) (w : World),
    let result := fst (IncidentForm.handleFiles createObjectURL files prev w) in
    let w' := snd (IncidentForm.handleFiles createObjectURL files prev w) in
    match files with
    | None => result = prev ∧ w' = w
    | Some fs =>
        length result = (length fs + length prev)%nat ∧
        drop (length fs) result = prev ∧
        draws w' = (length fs + draws w)%nat ∧
        ∀ k f, fs !! k = Some f →
          result !! k =
            Some {| Attachment.id := "att_" +:+ slice 2 9 (entropy w (draws w + k));
                    Attachment.name := IncidentForm.file_name f;
                    Attachment.type := IncidentForm.file_type f;
                    Attachment.size := IncidentForm.file_size f;
                    Attachment.url := createObjectURL f |}
    end.
Proof.
  intros url files prev w result w'. subst result w'.
  destruct files as [fs|]; [|done]. unfold IncidentForm.handleFiles, bind.
  destruct (Array_map_attach_run url fs w) as (added & Hrun & Hlen & Hlook).
  rewrite Hrun. cbn [fst snd ret draws]. split; [|split; [|split]].
  - rewrite length_app. lia.
  - rewrite <- Hlen. by rewrite drop_app_length.
  - done.
  - intros k f Hk. rewrite lookup_app_l; [by apply Hlook|].
    rewrite Hlen. by apply lookup_lt_Some in Hk.
Qed.

Lemma X15_witness :
  let f := IncidentForm.mkFile "captura.png" "image/png" 2048 in
  let old := Attachment.mk "att_old" "log.txt" "text/plain" 10 "blob:1" in
  fst (IncidentForm.handleFiles (λ _, "blob:2") (Some [f]) [old] sample_world)
  = [Attachment.mk "att_4fzyo82" "captura.png" "image/png" 2048 "blob:2"; old].
Proof.
  intros f old.
  pose proof (X15_handleFiles_prepends (λ _, "blob:2") (Some [f]) [old] sample_world) as H.
  cbn beta zeta iota in H. destruct H as (Hlen & Hdrop & _ & Hnew).
  specialize (Hnew 0 f eq_refl).
  destruct (fst (IncidentForm.handleFiles (λ _, "blob:2") (Some [f]) [old] sample_world))
    as [|a [|b l]]; cbn in Hlen, Hdrop, Hnew; try lia.
  destruct l; [|cbn in Hlen; lia].
  inversion Hnew; subst a. inversion Hdrop; subst b. reflexivity.
Defined.


(* ===================================================================== *)
(** * QueryEngine: the filters and the order of the collection *)
(* ===================================================================== *)

Lemma filter_filter {A} (f g : A → bool) (l : list A) :
  List.filter g (List.filter f l) = List.filter (λ x, f x && g x) l.
Proof.
  induction l as [|x l IH]; [done|]. cbn. destruct (f x); cbn; [|done].
  destruct (g x); by rewrite IH.
Qed.

Lemma filter_true {A} (l : list A) : List.filter (λ _, true) l = l.
Proof. induction l as [|x l IH]; [done|]. cbn. by rewrite IH. Qed.

Lemma apply_filters_keeps incidents query sf pf :
  apply_filters incidents query sf pf = List.filter (keeps query sf pf) incidents.
Proof.
  unfold apply_filters, keeps.
  destruct (truthy (trim query)), sf as [|s], (negb (String.eqb pf "Todas"));
    cbv beta zeta iota; rewrite ?filter_filter;
    first [ reflexivity
          | apply filter_ext; intros i; cbn [andb];
            by rewrite ?andb_true_r, ?andb_assoc
          | symmetry; apply filter_true ].
Qed.








(** X17: with a blank query and both filters on "all", the derived view is a
    rearrangement of the whole collection: every incident appears in it as
    many times as in the collection, and the two have the same length. *)
Theorem X17_no_filter_keeps_all :
  ∀ (Date_valueOf : string → option Z) (incidents : list Incident.t) (query : string)
    (sortBy : SortBy) (priorities : list string),
    trim query = "" →
    let view := filtered Date_valueOf incidents query Todos "Todas" sortBy priorities in
    Permutation view incidents ∧ length view = length incidents.
Proof.
  intros dv incidents query sortBy priorities Hq view. subst view.
  assert (Hp : Permutation (filtered dv incidents query Todos "Todas" sortBy priorities)
                           incidents).
  { unfold filtered, apply_filters. apply truthy_false in Hq. rewrite Hq. cbn.
    destruct sortBy; apply Array_sort_perm. }
  split; [done|]. by apply Permutation_length.
Qed.

Lemma X17_witness :
  length (filtered Date_parse_ISO [inc_A; inc_B; inc_C] "  " Todos "Todas" prioridad
                   ["Baja"; "Media"; "Alta"; "Crítica"]) = 3.
Proof.
  destruct (X17_no_filter_keeps_all Date_parse_ISO [inc_A; inc_B; inc_C] "  " prioridad
              ["Baja"; "Media"; "Alta"; "Crítica"] eq_refl) as [_ Hlen].
  exact Hlen.
Defined.

Lemma Array_sort_sorted_id {A} (cmp : A → A → option Z) (key : A → Z) l :
  compares_keys cmp key l → StronglySorted (key_ge key) l → Array_sort cmp l = l.
Proof.
  intros Hc Hs. symmetry. by apply (Array_sort_unique cmp key).
Qed.

Lemma compares_keys_perm {A} (cmp : A → A → option Z) (key : A → Z) l l' :
  (∀ x, x ∈ l' → x ∈ l) → compares_keys cmp key l → compares_keys cmp key l'.
Proof. intros Hsub Hc a b Ha Hb. apply Hc; by apply Hsub. Qed.

Lemma Array_sort_twice {A} (cmp : A → A → option Z) (key : A → Z) l :
  compares_keys cmp key l → Array_sort cmp (Array_sort cmp l) = Array_sort cmp l.
Proof.
  intros Hc. apply (Array_sort_sorted_id cmp key).
  - apply (compares_keys_perm cmp key l); [|done]. intros x. by rewrite Array_sort_elem_of.
  - by apply Array_sort_sorted.
Qed.

Lemma filter_keeps_sorted {A} (cmp : A → A → option Z) (f : A → bool) l :
  List.filter f (Array_sort cmp (List.filter f l)) = Array_sort cmp (List.filter f l).
Proof.
  apply filter_all_true. intros x Hx. apply Array_sort_elem_of in Hx.
  by apply list_elem_of_In, filter_In in Hx as [_ Hx].
Qed.

(** X18: the derived view is stable under being queried again: applying the
    same query, filters and sort mode to the view gives the view. By priority
    this holds for every collection; by date, for every collection whose
    [createdAt] are valid dates. *)
Theorem X18_view_idempotent :
  ∀ (Date_valueOf : string → option Z) (incidents : list Incident.t) (query : string)
    (statusFilter : StatusFilter) (priorityFilter : string) (priorities : list string),
    let again sortBy l :=
      filtered Date_valueOf l query statusFilter priorityFilter sortBy priorities in
    again prioridad (again prioridad incidents) = again prioridad incidents ∧
    ((∀ i, i ∈ incidents → is_Some (created Date_valueOf i)) →
       again fecha (again fecha incidents) = again fecha incidents).
Proof.
  intros dv incidents query sf pf priorities again. subst again. cbn beta.
  unfold filtered. rewrite !apply_filters_keeps. split.
  - rewrite filter_keeps_sorted.
    apply (Array_sort_twice _ (rank_key priorities)), compares_keys_prioridad.
  - intros Hvalid. rewrite filter_keeps_sorted.
    apply (Array_sort_twice _ (created_key dv)), compares_keys_fecha.
    intros i Hi. apply Hvalid. by apply list_elem_of_In, filter_In in Hi as [Hi%list_elem_of_In _].
Qed.

Lemma X18_witness :
  let l := [inc_A; inc_B; inc_C] in
  let v := filtered Date_parse_ISO l "" Todos "Todas" fecha [] in
  filtered Date_parse_ISO v "" Todos "Todas" fecha [] = v.
Proof.
  intros l v.
  destruct (X18_view_idempotent Date_parse_ISO l "" Todos "Todas" []) as [_ H].
  apply H. intros i Hi. unfold l in Hi.
  repeat (apply elem_of_cons in Hi as [->|Hi]; [by eexists|]).
  by apply elem_of_nil in Hi.
Defined.

Lemma StronglySorted_filter {A} (R : A → A → Prop) (f : A → bool) l :
  StronglySorted R l → StronglySorted R (List.filter f l).
Proof.
  induction 1 as [|x l Hs IH Hx]; cbn; [constructor|].
  destruct (f x); [|done]. constructor; [done|].
  apply Forall_forall. intros y Hy. apply list_elem_of_In, filter_In in Hy as [Hy _].
  eapply Forall_forall in Hx; [exact Hx|]. by apply list_elem_of_In.
Qed.

Lemma newest_first_view dv l query sf pf priorities :
  newest_first dv l →
  filtered dv l query sf pf fecha priorities = apply_filters l query sf pf.
Proof.
  intros [Hvalid Hsorted]. unfold filtered. rewrite apply_filters_keeps.
  apply (Array_sort_sorted_id _ (created_key dv)).
  - apply compares_keys_fecha. intros i Hi. apply Hvalid.
    by apply list_elem_of_In, filter_In in Hi as [Hi%list_elem_of_In _].
  - by apply StronglySorted_filter.
Qed.

(** X19: when the collection is newest first and the clock does not read
    earlier than the incidents already there, [createIncident] keeps it newest
    first; and on a collection that is newest first the by-date sort changes
    nothing: the view is what the filters leave, in the order of the
    collection. *)
Theorem X19_collection_stays_newest_first :
  ∀ (Date_valueOf : string → option Z) (w : World) (data : IncidentData.t) (t : Z),
    newest_first Date_valueOf (incidents w) →
    Date_valueOf (clock w (ticks w)) = Some t →
    (∀ i, i ∈ incidents w → (created_key Date_valueOf i ≤ t)%Z) →
    let w' := exec (createIncident data) w in
    newest_first Date_valueOf (incidents w') ∧
    ∀ query statusFilter priorityFilter priorities,
      filtered Date_valueOf (incidents w') query statusFilter priorityFilter fecha priorities
      = apply_filters (incidents w') query statusFilter priorityFilter.
Proof.
  intros dv w data t [Hvalid Hsorted] Hnow Hle w'. subst w'.
  assert (Hnf : newest_first dv (incidents (exec (createIncident data) w))).
  { change (incidents (exec (createIncident data) w))
      with (new_incident ("inc_" +:+ slice 2 9 (entropy w (draws w)))
                         (clock w (ticks w)) data :: incidents w).
    split.
    - intros i Hi. apply elem_of_cons in Hi as [->|Hi]; [|by apply Hvalid].
      unfold created. cbn. rewrite Hnow. by eexists.
    - constructor; [done|]. apply Forall_forall. intros i Hi.
      unfold key_ge, created_key at 2, created. cbn. rewrite Hnow. cbn. by apply Hle. }
  split; [done|]. intros. by apply newest_first_view.
Qed.

Lemma X19_witness :
  let w := mkWorld [inc_B; inc_A] [] DEFAULT_SETTINGS ∅ []
                   (λ _, "1970-01-01T00:00:00.003Z") 0 (λ _, "0.4fzyo82mvyr") 0 in
  let w' := exec (createIncident (sample_data Abierta)) w in
  filtered Date_parse_ISO (incidents w') "" Todos "Todas" fecha [] = incidents w'.
Proof.
  intros w w'.
  destruct (X19_collection_stays_newest_first Date_parse_ISO w (sample_data Abierta) 3%Z)
    as [_ Hview].
  - split.
    + intros i Hi. unfold w in Hi. cbn [incidents] in Hi.
      repeat (apply elem_of_cons in Hi as [->|Hi]; [by eexists|]).
      by apply elem_of_nil in Hi.
    + unfold w. cbn [incidents].
      repeat (constructor; [|repeat constructor; unfold key_ge; vm_compute; discriminate]).
      constructor.
  - reflexivity.
  - intros i Hi. unfold w in Hi. cbn [incidents] in Hi.
    repeat (apply elem_of_cons in Hi as [->|Hi]; [vm_compute; discriminate|]).
    by apply elem_of_nil in Hi.
  - exact (Hview "" Todos "Todas" []).
Defined.

Lemma updateIncident_world id patch w :
  ticks (exec (updateIncident id patch) w) = occurrences id (incidents w) + ticks w ∧
  clock (exec (updateIncident id patch) w) = clock w.
Proof.
  unfold exec, updateIncident, setIncidents.
  destruct (Array_map_updateIncident_run id patch (incidents w) w) as (l' & Hrun & _).
  by rewrite Hrun.
Qed.

(** X20: with a clock that gives valid dates and does not run backwards, the
    collection keeps the order of its time stamps: if no incident is updated
    before it was created and none was created after the present reading of
    the clock, the same holds after [createIncident], after [deleteIncident],
    and after [updateIncident] with a patch that carries no [createdAt]; the
    clock itself is not changed by the three operations. *)
Theorem X20_updatedAt_not_before_createdAt :
  ∀ (Date_valueOf : string → option Z) (T : nat → Z) (w : World),
    clock_monotone Date_valueOf T w →
    times_ordered Date_valueOf (T (ticks w)) (incidents w) →
    (∀ data,
       let w' := exec (createIncident data) w in
       clock w' = clock w ∧
       times_ordered Date_valueOf (T (ticks w')) (incidents w')) ∧
    (∀ id patch,
       IncidentPatch.createdAt patch = None →
       let w' := exec (updateIncident id patch) w in
       clock w' = clock w ∧
       times_ordered Date_valueOf (T (ticks w')) (incidents w')) ∧
    (∀ id,
       let w' := exec (deleteIncident id) w in
       clock w' = clock w ∧
       times_ordered Date_valueOf (T (ticks w')) (incidents w')).
Proof.
  intros dv T w [Hvalid Hmono] Hinv. split; [|split].
  - intros data w'. subst w'. split; [done|].
    change (incidents (exec (createIncident data) w))
      with (new_incident ("inc_" +:+ slice 2 9 (entropy w (draws w)))
                         (clock w (ticks w)) data :: incidents w).
    change (ticks (exec (createIncident data) w)) with (S (ticks w)).
    intros it Hit. apply elem_of_cons in Hit as [->|Hit].
    + exists (T (ticks w)), (T (ticks w)). cbn. rewrite Hvalid.
      repeat split; [lia|]. apply Hmono. lia.
    + destruct (Hinv it Hit) as (tc & tu & Hc & Hu & Hle & Hb).
      exists tc, tu. repeat split; [done..|]. etrans; [exact Hb|]. apply Hmono. lia.
  - intros id patch Hp w'. subst w'.
    destruct (updateIncident_world id patch w) as [Hticks Hclock].
    split; [done|]. rewrite Hticks.
    intros it' Hit'. apply list_elem_of_lookup in Hit' as [i Hi'].
    assert (Hlt : i < length (incidents w)).
    { rewrite <- (updateIncident_length id patch w). by apply lookup_lt_Some in Hi'. }
    destruct (lookup_lt_is_Some_2 _ _ Hlt) as [it Hi].
    rewrite (updateIncident_lookup _ _ _ _ _ Hi) in Hi'. inversion Hi' as [Heq]. clear Hi'.
    destruct (Hinv it (list_elem_of_lookup_2 _ _ _ Hi)) as (tc & tu & Hc & Hu & Hle & Hb).
    destruct (String.eqb (Incident.id it) id).
    + exists tc, (T (ticks w + occurrences id (take i (incidents w)))).
      cbn. rewrite Hp. cbn. rewrite Hvalid. repeat split; [done| |].
      * etrans; [exact Hb|]. apply Hmono. lia.
      * etrans; [exact Hb|]. apply Hmono. lia.
    + exists tc, tu. repeat split; [done..|]. etrans; [exact Hb|]. apply Hmono. lia.
  - intros id w'. subst w'. split; [done|].
    change (ticks (exec (deleteIncident id) w)) with (ticks w).
    rewrite deleteIncident_incidents. intros it Hit.
    apply list_elem_of_In, filter_In in Hit as [Hit%list_elem_of_In _]. by apply Hinv.
Qed.

Lemma X20_witness :
  let w := mkWorld [inc_A] [] DEFAULT_SETTINGS ∅ []
                   (λ _, "1970-01-01T00:00:00.003Z") 0 (λ _, "0.4fzyo82mvyr") 0 in
  times_ordered Date_parse_ISO 3 (incidents (exec (onStatusChange "A" Cerrada) w)).
Proof.
  intros w.
  destruct (X20_updatedAt_not_before_createdAt Date_parse_ISO (λ _, 3%Z) w)
    as (_ & Hupd & _).
  - split; [done|]. intros; lia.
  - intros it Hit. apply list_elem_of_singleton in Hit as ->.
    exists 1%Z, 1%Z. repeat split; (reflexivity || lia).
  - exact (proj2 (Hupd "A" (IncidentPatch.mk None None None None None None (Some Cerrada)
                                              None None None None) eq_refl)).
Defined.

(* ===================================================================== *)
(** * Persistence: shape, keys, notifications *)
(* ===================================================================== *)

(** X21: [loadLS] does not check what it parsed. When the entry holds the
    text of a value that is not an array ([null], a number, a string, an
    object), that value is returned, not the fallback, and read as an
    Incident collection it is not one. *)
Theorem X21_loadLS_wrong_shape :
  ∀ (store : gmap string string) (key : string) (fallback v : value)
    (typed_fallback : list Incident.t),
    JSON_safe v = true → (∀ vs, v ≠ VArr vs) →
    let store' := <[key := JSON_stringify v]> store in
    loadLS key fallback store' = Normal v ∧
    loadLS_as key typed_fallback store' = Normal None.
Proof.
  intros store key fallback v tfb Hsafe Hshape store'. subst store'.
  assert (Hload : ∀ fb, loadLS key fb (<[key := JSON_stringify v]> store) = Normal v).
  { intros fb. unfold loadLS. rewrite lookup_insert_eq, JSON_stringify_nonempty.
    by rewrite (JSON_parse_stringify v Hsafe). }
  split; [apply Hload|]. unfold loadLS_as. rewrite Hload.
  destruct v as [| | | |vs|]; try done. by destruct (Hshape vs).
Qed.

Lemma X21_witness :
  loadLS LS_KEYS.incidents (VArr []) {[ LS_KEYS.incidents := "null" ]} = Normal VNull ∧
  loadLS_as LS_KEYS.incidents ([] : list Incident.t) {[ LS_KEYS.incidents := "null" ]}
  = Normal None.
Proof.
  pose proof (X21_loadLS_wrong_shape ∅ LS_KEYS.incidents (VArr []) VNull []
                eq_refl ltac:(discriminate)) as H.
  rewrite insert_empty in H. exact H.
Defined.

(** X22: [saveLS] writes one entry and nothing else. What is loaded from
    another key is what was loaded before; the collections of the state, the
    clock and the random source are untouched; and of two saves under one key
    the later one is what is loaded. *)
Theorem X22_saveLS_frame :
  ∀ (w : World) (key : string) (v : value),
    let w' := exec (saveLS key v) w in
    (∀ key' fallback, key' ≠ key →
       loadLS key' fallback (localStorage w') = loadLS key' fallback (localStorage w)) ∧
    incidents w' = incidents w ∧ contentBlocks w' = contentBlocks w ∧
    settings w' = settings w ∧ toasts w' = toasts w ∧ ticks w' = ticks w ∧
    draws w' = draws w ∧
    (∀ v2 fallback, JSON_safe v2 = true →
       loadLS key fallback (localStorage (exec (saveLS key v2) w')) = Normal v2).
Proof.
  intros w key v w'. subst w'. split; [|repeat split].
  - intros key' fb Hne. rewrite saveLS_localStorage. unfold loadLS.
    by rewrite lookup_insert_ne.
  - intros v2 fb Hsafe. by apply loadLS_after_saveLS.
Qed.

Lemma X22_witness :
  loadLS "b" VNull (localStorage (exec (saveLS "a" (VNum 1)) sample_world)) = Normal VNull ∧
  loadLS "a" VNull
    (localStorage (exec (saveLS "a" (VNum 2)) (exec (saveLS "a" (VNum 1)) sample_world)))
  = Normal (VNum 2).
Proof.
  destruct (X22_saveLS_frame sample_world "a" (VNum 1)) as (Hother & _ & _ & _ & _ & _ & _ & Hlast).
  split.
  - rewrite (Hother "b" VNull); [reflexivity|discriminate].
  - exact (Hlast (VNum 2) VNull eq_refl).
Defined.

Lemma stringify_to_value_inj {T} `{JSONLaws T} (a b : T) :
  JSON_stringify (to_value a) = JSON_stringify (to_value b) → a = b.
Proof.
  intros Heq.
  pose proof (JSON_parse_stringify _ (to_value_safe a)) as Ha.
  pose proof (JSON_parse_stringify _ (to_value_safe b)) as Hb.
  rewrite Heq, Hb in Ha. inversion Ha as [Hv].
  pose proof (of_to_value a) as Hoa. rewrite <- Hv, of_to_value in Hoa. by inversion Hoa.
Qed.

(** X23: the text stored for a collection determines the collection: two
    Incident collections, two ContentBlock collections or two Settings
    records that are stored as the same text are equal. *)
Theorem X23_stored_text_determines_collection :
  (∀ a b : list Incident.t,
     JSON_stringify (to_value a) = JSON_stringify (to_value b) → a = b) ∧
  (∀ a b : list ContentBlock.t,
     JSON_stringify (to_value a) = JSON_stringify (to_value b) → a = b) ∧
  (∀ a b : Settings.t,
     JSON_stringify (to_value a) = JSON_stringify (to_value b) → a = b).
Proof. repeat split; intros a b; apply stringify_to_value_inj. Qed.

Lemma X23_witness :
  [sample_incident "inc_a"] = [new_incident "inc_a" "2024-04-30T08:00:00.000Z"
                                 (sample_data Abierta)].
Proof.
  destruct X23_stored_text_determines_collection as [H _].
  apply H. reflexivity.
Defined.

(** X24: the saving effects write the three entries of the component and no
    other entry of the storage, leave the state as it is, and running them
    again changes nothing. *)
Theorem X24_persist_idempotent :
  ∀ (w : World),
    let w' := exec persist w in
    (∀ key, key ≠ LS_KEYS.incidents → key ≠ LS_KEYS.contentBlocks →
            key ≠ LS_KEYS.settings → localStorage w' !! key = localStorage w !! key) ∧
    incidents w' = incidents w ∧ contentBlocks w' = contentBlocks w ∧
    settings w' = settings w ∧
    exec persist w' = w'.
Proof.
  intros w w'. subst w'.
  change (localStorage (exec persist w))
    with (<[LS_KEYS.settings := JSON_stringify (to_value (settings w))]>
           (<[LS_KEYS.contentBlocks := JSON_stringify (to_value (contentBlocks w))]>
             (<[LS_KEYS.incidents := JSON_stringify (to_value (incidents w))]>
               (localStorage w)))).
  split; [|repeat split].
  - intros key H1 H2 H3. by rewrite !lookup_insert_ne.
  - unfold exec, persist, bind, saveLS. cbn. f_equal.
    apply map_eq. intros k.
    destruct (decide (k = LS_KEYS.settings)) as [->|H3];
      [by rewrite !lookup_insert_eq|].
    rewrite (lookup_insert_ne _ LS_KEYS.settings k) by done.
    destruct (decide (k = LS_KEYS.contentBlocks)) as [->|H2];
      [by rewrite lookup_insert_eq, lookup_insert_ne, lookup_insert_eq|].
    rewrite (lookup_insert_ne _ LS_KEYS.contentBlocks k) by done.
    destruct (decide (k = LS_KEYS.incidents)) as [->|H1].
    + rewrite lookup_insert_eq. rewrite !lookup_insert_ne by done.
      by rewrite lookup_insert_eq.
    + by rewrite !lookup_insert_ne.
Qed.

Lemma X24_witness :
  localStorage (exec persist sample_world) !! "theme" = None.
Proof.
  destruct (X24_persist_idempotent sample_world) as [Hother _].
  rewrite (Hother "theme"); [reflexivity|discriminate..].
Defined.

(** X25: deletions commute and repeat harmlessly: deleting two ids in either
    order leaves the same collection, and deleting an id twice is deleting it
    once, whatever the number of incidents that have it. *)
Theorem X25_deleteIncident_commutes :
  ∀ (w : World) (a b : string),
    incidents (exec (deleteIncident a) (exec (deleteIncident b) w))
    = incidents (exec (deleteIncident b) (exec (deleteIncident a) w)) ∧
    exec (deleteIncident a) (exec (deleteIncident a) w) = exec (deleteIncident a) w ∧
    length (incidents (exec (deleteIncident a) w)) + occurrences a (incidents w)
    = length (incidents w).
Proof.
  intros w a b. rewrite !deleteIncident_incidents. split; [|split].
  - rewrite !filter_filter. apply filter_ext. intros i. apply andb_comm.
  - unfold exec, deleteIncident, setIncidents, ret. cbn.
    by rewrite (filter_negb_twice (λ i, String.eqb (Incident.id i) a)).
  - apply (filter_negb_length (λ i, String.eqb (Incident.id i) a)).
Qed.

(** X26: only the creation of an incident shows a toast: it adds one, titled
    "Incidencia creada", whose description is the title of the incident;
    updating or deleting an incident and creating, updating or deleting a
    content block show none. *)
Theorem X26_only_creation_notifies :
  ∀ (w : World),
    (∀ data,
       toasts (exec (createIncident data) w)
       = (toasts w ++ [ {| Toast.title := "Incidencia creada";
                           Toast.description := IncidentData.title data |} ])%list) ∧
    (∀ id patch, toasts (exec (updateIncident id patch) w) = toasts w) ∧
    (∀ id, toasts (exec (deleteIncident id) w) = toasts w) ∧
    (∀ block, toasts (exec (upsertBlock block) w) = toasts w) ∧
    (∀ id, toasts (exec (deleteBlock id) w) = toasts w).
Proof.
  intros w. split; [done|]. split; [|split; [done|split; [|done]]].
  - intros id patch. unfold exec, updateIncident, setIncidents.
    destruct (Array_map_updateIncident_run id patch (incidents w) w) as (l' & Hrun & _).
    by rewrite Hrun.
  - intros block. destruct (truthy_opt (opt_id block)) eqn:Hid.
    + destruct (upsertBlock_update_run block w Hid) as (l' & Hrun & _).
      unfold exec. by rewrite Hrun.
    + unfold upsertBlock. by rewrite Hid.
Qed.

(* ===================================================================== *)
(** * [trim] *)
(* ===================================================================== *)

Lemma drop_bytes_length n s : String.length (drop_bytes n s) ≤ String.length s.
Proof.
  revert s. induction n as [|n IH]; intros [|c s]; cbn; try lia.
  specialize (IH s). lia.
Qed.

Lemma space_width_le s : space_width s ≤ String.length s.
Proof.
  destruct s as [|c [|d [|e s]]]; unfold space_width; cbv zeta;
    cbn [String.length];
    repeat match goal with |- context [if ?b then _ else _] => destruct b end; lia.
Qed.

Lemma space_width_app a b k :
  space_width a = S k → space_width (a +:+ b) = S k.
Proof.
  destruct a as [|c [|d [|e a]]]; [done|..];
    rewrite ?append_cons, ?append_nil_l; unfold space_width; cbv zeta.
  - destruct (_ || _); [done|discriminate].
  - destruct (_ || _); [done|]. destruct (_ && _); [done|discriminate].
  - done.
Qed.

Lemma drop_bytes_0 s : drop_bytes 0 s = s.
Proof. by destruct s. Qed.

Lemma drop_bytes_app n a b :
  n ≤ String.length a → drop_bytes n (a +:+ b) = drop_bytes n a +:+ b.
Proof.
  revert a. induction n as [|n IH]; intros a Hn.
  - by rewrite !drop_bytes_0.
  - destruct a as [|c a]; [cbn in Hn; lia|]. rewrite append_cons. cbn in *.
    apply IH. lia.
Qed.

Lemma trimStart_from_fuel f1 f2 s :
  String.length s ≤ f1 → String.length s ≤ f2 →
  trimStart_from f1 s = trimStart_from f2 s.
Proof.
  revert f2 s. induction f1 as [|f1 IH]; intros f2 s H1 H2.
  - destruct s; [|cbn in H1; lia]. by destruct f2.
  - destruct f2 as [|f2].
    { destruct s; [done|cbn in H2; lia]. }
    cbn [trimStart_from]. destruct (space_width s) as [|k] eqn:E; [done|].
    destruct s as [|c s]; [done|]. cbn [drop_bytes].
    pose proof (drop_bytes_length k s). cbn in H1, H2. apply IH; lia.
Qed.

Lemma trimStart_unfold s :
  trimStart s =
  match space_width s with
  | O => s
  | S k => trimStart (drop_bytes (S k) s)
  end.
Proof.
  unfold trimStart. destruct s as [|c s]; [done|].
  cbn [String.length trimStart_from]. destruct (space_width (String c s)) as [|k]; [done|].
  cbn [drop_bytes]. pose proof (drop_bytes_length k s). apply trimStart_from_fuel; lia.
Qed.

Lemma trimStart_width s : space_width (trimStart s) = 0.
Proof.
  remember (String.length s) as n eqn:Hn. revert s Hn.
  induction n as [n IH] using lt_wf_ind. intros s ->.
  rewrite trimStart_unfold. destruct (space_width s) as [|k] eqn:E; [done|].
  destruct s as [|c s]; [done|]. cbn [drop_bytes].
  pose proof (drop_bytes_length k s). apply (IH (String.length (drop_bytes k s))); [|done].
  cbn. lia.
Qed.

Lemma trimStart_fixed s : space_width s = 0 → trimStart s = s.
Proof. intros H. by rewrite trimStart_unfold, H. Qed.

(** White space in front of a text is stripped whatever follows it. *)
Lemma trimStart_blank_app a b : trimStart a = "" → trimStart (a +:+ b) = trimStart b.
Proof.
  remember (String.length a) as n eqn:Hn. revert a Hn.
  induction n as [n IH] using lt_wf_ind. intros a -> Ha.
  rewrite trimStart_unfold in Ha. destruct (space_width a) as [|k] eqn:E.
  - subst a. by rewrite append_nil_l.
  - rewrite (trimStart_unfold (a +:+ b)), (space_width_app a b k E).
    pose proof (space_width_le a) as Hle. rewrite E in Hle.
    rewrite drop_bytes_app by done.
    apply (IH (String.length (drop_bytes (S k) a))); [|done..].
    destruct a as [|c a]; [done|]. cbn [drop_bytes String.length].
    pose proof (drop_bytes_length k a). lia.
Qed.

(** What [trimEnd] cuts off is white space. *)
Lemma trimEnd_split s : ∃ tail, s = trimEnd s +:+ tail ∧ trimStart tail = "".
Proof.
  induction s as [|c s (tail & Hs & Ht)]; [by exists ""|]. cbn [trimEnd].
  destruct (String.eqb_spec (trimStart (String c s)) "") as [E|E].
  - by exists (String c s).
  - exists tail. split; [|done]. rewrite append_cons. by rewrite <- Hs.
Qed.

Lemma trimEnd_width s : space_width s = 0 → space_width (trimEnd s) = 0.
Proof.
  intros H. destruct (trimEnd_split s) as (tail & Hs & _).
  destruct (space_width (trimEnd s)) as [|k] eqn:E; [done|].
  apply (space_width_app _ tail) in E. rewrite <- Hs in E. congruence.
Qed.

Lemma trimEnd_idempotent s : trimEnd (trimEnd s) = trimEnd s.
Proof.
  induction s as [|c s IH]; [done|]. cbn [trimEnd].
  destruct (String.eqb_spec (trimStart (String c s)) "") as [E|E]; [done|].
  cbn [trimEnd]. rewrite IH.
  destruct (String.eqb_spec (trimStart (String c (trimEnd s))) "") as [E'|E']; [|done].
  exfalso. apply E. destruct (trimEnd_split s) as (tail & Hs & Ht).
  rewrite Hs at 1. rewrite <- append_cons. by rewrite (trimStart_blank_app _ tail E').
Qed.

Lemma trim_idempotent s : trim (trim s) = trim s.
Proof.
  unfold trim. rewrite (trimStart_fixed (trimEnd (trimStart s))).
  - apply trimEnd_idempotent.
  - apply trimEnd_width, trimStart_width.
Qed.

Lemma parse_labels_clean text : Forall clean_label (parse_labels text).
Proof.
  apply Forall_forall. intros x Hx. unfold parse_labels in Hx.
  apply list_elem_of_In, filter_In in Hx as [Hin Htr].
  apply in_map_iff in Hin as (piece & <- & Hpiece). split; [|split].
  - by apply truthy_true.
  - intros Hc. apply chars_trim in Hc.
    by apply (split_on_pieces _ _ _ (proj2 (list_elem_of_In _ _) Hpiece)).
  - apply trim_idempotent.
Qed.

(** X27: what the settings dialog saves is in the form it shows: every saved
    label is non-empty, without a comma and without white space around it.
    Hence opening the dialog on settings it has saved and saving again changes
    nothing, whatever was typed the first time. *)
Theorem X27_SettingsDialog_save_idempotent :
  ∀ (w : World) (d : SettingsDialog.t),
    let w1 := exec (SettingsDialog.save d) w in
    Forall clean_label (Settings.categories (settings w1)) ∧
    Forall clean_label (Settings.servers (settings w1)) ∧
    Forall clean_label (Settings.priorities (settings w1)) ∧
    exec (SettingsDialog.save (SettingsDialog.initial (settings w1))) w1 = w1.
Proof.
  intros w d w1. subst w1.
  change (settings (exec (SettingsDialog.save d) w))
    with {| Settings.categories := parse_labels (SettingsDialog.cats d);
            Settings.servers := parse_labels (SettingsDialog.srvs d);
            Settings.priorities := parse_labels (SettingsDialog.pris d) |}.
  cbn [Settings.categories Settings.servers Settings.priorities].
  split; [apply parse_labels_clean|]. split; [apply parse_labels_clean|].
  split; [apply parse_labels_clean|].
  unfold exec, SettingsDialog.save, SettingsDialog.initial, setSettings.
  cbn [SettingsDialog.cats SettingsDialog.srvs SettingsDialog.pris snd settings
       Settings.categories Settings.servers Settings.priorities].
  by rewrite !parse_labels_join by apply parse_labels_clean.
Qed.
